(** * The local synchronization engine of seanime ([internal/sync/sync.go])

    A shallow embedding of the Syncer: the two job workers, the drain check
    [checkAndUpdateLocalCollections], the per-entity [synchronizeAnime] and
    [synchronizeManga], and the local collection builder
    [synchronizeCollections], with the properties of the specification
    stated over them. *)

From Stdlib Require Import ZArith String List Bool Lia.
From stdpp Require Import base option list gmap strings pretty fin_maps.

Set Default Goal Selector "!".

(** ** Data model *)

(** The GraphQL client types of package [anilist] are generated code that is
    not part of the sources at hand; they are modelled from their uses in
    [sync.go].  A Go pointer to a scalar is an [option]; the anime and the
    manga variants of a type have the same fields and share one record. *)
Module anilist.

(** [type MediaListStatus string] *)
Definition MediaListStatus : Type := string.

Record BaseMedia_CoverImage : Type := {
  ExtraLarge : option string;
  Large : option string;
  Medium : option string;
  Color : option string
}.

(** [BaseAnime] / [BaseManga]: the Builder reads [ID] and writes
    [BannerImage] and [CoverImage]; [Extra] stands for the remaining
    fields, which it never touches. *)
Record BaseMedia : Type := {
  ID : Z;
  BannerImage : option string;
  CoverImage : option BaseMedia_CoverImage;
  Extra : list (string * string)
}.

(** [..._Lists_Entries_StartedAt] / [..._CompletedAt] *)
Record FuzzyDate : Type := {
  Year : option Z;
  Month : option Z;
  Day : option Z
}.

(** [AnimeListEntry] / [MangaListEntry] *)
Record ListEntry : Type := {
  EntryID : Z;
  Score : option Z;
  Progress : option Z;
  EntryStatus : option MediaListStatus;
  Notes : option string;
  Repeat : option Z;
  Private : option bool;
  StartedAt : option FuzzyDate;
  CompletedAt : option FuzzyDate;
  Media : BaseMedia
}.

(** [AnimeCollection_MediaListCollection_Lists] *)
Record Lists : Type := {
  Status : option MediaListStatus;
  Name : option string;
  IsCustomList : option bool;
  Entries : list ListEntry
}.

(** [AnimeCollection_MediaListCollection] *)
Record MediaListCollection : Type := {
  CollectionLists : list Lists
}.

(** [AnimeCollection] / [MangaCollection] *)
Record Collection : Type := {
  ListCollection : option MediaListCollection
}.

(** The generated getters accept a nil receiver. *)
Definition GetLists (c : option MediaListCollection) : list Lists :=
  match c with
  | Some mlc => CollectionLists mlc
  | None => []
  end.

Definition GetStatus (l : Lists) : option MediaListStatus := Status l.
Definition GetEntries (l : Lists) : list ListEntry := Entries l.
Definition GetMedia (e : ListEntry) : BaseMedia := Media e.
Definition GetID (m : BaseMedia) : Z := ID m.

End anilist.
Import anilist.

Abbreviation AnimeCollection := Collection (only parsing).
Abbreviation MangaCollection := Collection (only parsing).
Abbreviation AnimeListEntry := ListEntry (only parsing).
Abbreviation MangaListEntry := ListEntry (only parsing).
Abbreviation BaseAnime := BaseMedia (only parsing).
Abbreviation BaseManga := BaseMedia (only parsing).

(** [anime.LocalFile], [manga.ChapterContainer], [metadata.AnimeMetadata]:
    declared outside the sources at hand, with the fields [sync.go] reads. *)
Record LocalFile : Type := {
  Path : string;
  FileMediaId : Z
}.

Record ChapterContainer : Type := {
  ContainerMediaId : Z;
  Provider : string;
  ChapterIds : list string
}.

Record EpisodeMetadata : Type := {
  Image : string;
  EpisodeTitle : string
}.

Record AnimeMetadata : Type := {
  Titles : list (string * string);
  Episodes : gmap string EpisodeMetadata
}.

Definition LocalAnimeMetadata (m : AnimeMetadata) : AnimeMetadata := m.

Record TrackedMedia : Type := {
  TrackedMediaId : Z;
  TrackedType : string
}.

Record AnimeSnapshot : Type := {
  AnimeMediaId : Z;
  AnimeMetadataOf : AnimeMetadata;
  AnimeBannerImagePath : string;
  AnimeCoverImagePath : string;
  EpisodeImagePaths : gmap string string;
  AnimeReferenceKey : string
}.

Record MangaSnapshot : Type := {
  MangaMediaId : Z;
  ChapterContainers : list ChapterContainer;
  MangaBannerImagePath : string;
  MangaCoverImagePath : string;
  MangaReferenceKey : string
}.

Inductive DiffType : Type := DiffTypeUpToDate | DiffTypeMissing | DiffTypeMetadata.

Global Instance DiffType_eq_dec : EqDecision DiffType.
Proof. solve_decision. Defined.

Record AnimeDiffResult : Type := {
  AnimeDiffType : DiffType;
  AnimeEntry : option AnimeListEntry;
  AnimeSnapshotOf : option AnimeSnapshot
}.

Record MangaDiffResult : Type := {
  MangaDiffType : DiffType;
  MangaEntry : option MangaListEntry;
  MangaSnapshotOf : option MangaSnapshot
}.

Record AnimeJob : Type := { AnimeDiff : AnimeDiffResult }.
Record MangaJob : Type := { MangaDiff : MangaDiffResult }.

(** ** The stores *)

Definition error : Type := string.

(** Modelled from the spec: the Snapshot Store ([localDb]) is consumed as a
    record store and its code is not part of the sources at hand.  Snapshot
    rows are keyed by media ID ([media_id PRIMARY KEY]); the two local
    collections are singleton rows; an operation listed in [failingOps]
    reports a store I/O error and writes nothing. *)
Inductive DbOp : Type :=
  | OpGetAnimeSnapshots | OpGetMangaSnapshots
  | OpSaveAnimeSnapshot | OpSaveMangaSnapshot
  | OpDeleteAnimeSnapshot | OpDeleteMangaSnapshot
  | OpSaveAnimeCollection | OpSaveMangaCollection.

Global Instance DbOp_eq_dec : EqDecision DbOp.
Proof. solve_decision. Defined.

Record LocalDb : Type := {
  animeSnapshotRows : list AnimeSnapshot;
  mangaSnapshotRows : list MangaSnapshot;
  localAnimeCollectionRow : option AnimeCollection;
  localMangaCollectionRow : option MangaCollection;
  failingOps : list DbOp
}.

Definition fails (op : DbOp) (db : LocalDb) : bool := bool_decide (op ∈ failingOps db).

Definition ioError (op : DbOp) : error :=
  match op with
  | OpGetAnimeSnapshots => "get anime snapshots"
  | OpGetMangaSnapshots => "get manga snapshots"
  | OpSaveAnimeSnapshot => "save anime snapshot"
  | OpSaveMangaSnapshot => "save manga snapshot"
  | OpDeleteAnimeSnapshot => "delete anime snapshot"
  | OpDeleteMangaSnapshot => "delete manga snapshot"
  | OpSaveAnimeCollection => "save anime collection"
  | OpSaveMangaCollection => "save manga collection"
  end.

Definition GetAnimeSnapshots (db : LocalDb) : list AnimeSnapshot * option error :=
  if fails OpGetAnimeSnapshots db then ([], Some (ioError OpGetAnimeSnapshots))
  else (animeSnapshotRows db, None).

Definition GetMangaSnapshots (db : LocalDb) : list MangaSnapshot * option error :=
  if fails OpGetMangaSnapshots db then ([], Some (ioError OpGetMangaSnapshots))
  else (mangaSnapshotRows db, None).

Definition withAnimeSnapshotRows (rows : list AnimeSnapshot) (db : LocalDb) : LocalDb :=
  {| animeSnapshotRows := rows;
     mangaSnapshotRows := mangaSnapshotRows db;
     localAnimeCollectionRow := localAnimeCollectionRow db;
     localMangaCollectionRow := localMangaCollectionRow db;
     failingOps := failingOps db |}.

Definition withMangaSnapshotRows (rows : list MangaSnapshot) (db : LocalDb) : LocalDb :=
  {| animeSnapshotRows := animeSnapshotRows db;
     mangaSnapshotRows := rows;
     localAnimeCollectionRow := localAnimeCollectionRow db;
     localMangaCollectionRow := localMangaCollectionRow db;
     failingOps := failingOps db |}.

(** Put a row under its primary key: the row of the same key is replaced
    where it stands, a new key is appended. *)
Fixpoint upsert {A : Type} (key : A -> Z) (row : A) (rows : list A) : list A :=
  match rows with
  | [] => [row]
  | r :: rest =>
      if bool_decide (key r = key row) then row :: rest
      else r :: upsert key row rest
  end.

Definition deleteRows {A : Type} (key : A -> Z) (k : Z) (rows : list A) : list A :=
  List.filter (fun r => negb (bool_decide (key r = k))) rows.

Definition SaveAnimeSnapshot (snapshot : AnimeSnapshot) (db : LocalDb) : option error * LocalDb :=
  if fails OpSaveAnimeSnapshot db then (Some (ioError OpSaveAnimeSnapshot), db)
  else (None, withAnimeSnapshotRows (upsert AnimeMediaId snapshot (animeSnapshotRows db)) db).

Definition SaveMangaSnapshot (snapshot : MangaSnapshot) (db : LocalDb) : option error * LocalDb :=
  if fails OpSaveMangaSnapshot db then (Some (ioError OpSaveMangaSnapshot), db)
  else (None, withMangaSnapshotRows (upsert MangaMediaId snapshot (mangaSnapshotRows db)) db).

Definition DeleteAnimeSnapshot (mId : Z) (db : LocalDb) : option error * LocalDb :=
  if fails OpDeleteAnimeSnapshot db then (Some (ioError OpDeleteAnimeSnapshot), db)
  else (None, withAnimeSnapshotRows (deleteRows AnimeMediaId mId (animeSnapshotRows db)) db).

Definition DeleteMangaSnapshot (mId : Z) (db : LocalDb) : option error * LocalDb :=
  if fails OpDeleteMangaSnapshot db then (Some (ioError OpDeleteMangaSnapshot), db)
  else (None, withMangaSnapshotRows (deleteRows MangaMediaId mId (mangaSnapshotRows db)) db).

Definition SaveAnimeCollection (c : AnimeCollection) (db : LocalDb) : option error * LocalDb :=
  if fails OpSaveAnimeCollection db then (Some (ioError OpSaveAnimeCollection), db)
  else (None,
        {| animeSnapshotRows := animeSnapshotRows db;
           mangaSnapshotRows := mangaSnapshotRows db;
           localAnimeCollectionRow := Some c;
           localMangaCollectionRow := localMangaCollectionRow db;
           failingOps := failingOps db |}).

Definition SaveMangaCollection (c : MangaCollection) (db : LocalDb) : option error * LocalDb :=
  if fails OpSaveMangaCollection db then (Some (ioError OpSaveMangaCollection), db)
  else (None,
        {| animeSnapshotRows := animeSnapshotRows db;
           mangaSnapshotRows := mangaSnapshotRows db;
           localAnimeCollectionRow := localAnimeCollectionRow db;
           localMangaCollectionRow := Some c;
           failingOps := failingOps db |}).

(** Modelled from the spec: the Asset Store keeps, per media ID, the files of
    the directory [<assetsRoot>/<mediaId>/]. *)
Definition AssetStore : Type := gmap Z (list string).

(** ** The Manager and the Syncer *)

Inductive LogLevel : Type := LevelTrace | LevelDebug | LevelWarn | LevelError.

Record LogEvent : Type := {
  Level : LogLevel;
  Message : string;
  Err : option error
}.

(** The calls made to the metadata provider and to the Image Downloader, in
    the order they are made. *)
Inductive Fetch : Type :=
  | FetchAnimeMetadata (mId : Z)
  | FetchAnimeImages (entry : AnimeListEntry) (animeMetadata : AnimeMetadata)
  | FetchAnimeEpisodeImages (mId : Z) (episodeImageUrls : gmap string string)
  | FetchMangaImages (entry : MangaListEntry).

(** [ManagerImpl], with the fields [sync.go] reads and writes.  [fetches] is
    not a field of the Go struct: it records the calls that leave the
    process, so that what is downloaded can be stated. *)
Record ManagerImpl : Type := {
  animeCollection : option AnimeCollection;
  mangaCollection : option MangaCollection;
  localAnimeCollection : option AnimeCollection;
  localMangaCollection : option MangaCollection;
  localFiles : list LocalFile;
  downloadedChapterContainers : list ChapterContainer;
  localDb : LocalDb;
  localAssets : AssetStore;
  fetches : list Fetch;
  logger : list LogEvent
}.

(** [Syncer].  A buffered channel is the list of the values it holds, oldest
    first; [doneUpdatingLocalCollections] carries empty structs, so its
    content is their number.  [changedAnimeQueue] and [changedMangaQueue] are
    never used by [sync.go] and are left out; the mutex and the two worker
    goroutines are part of the worker machine below. *)
Record Syncer : Type := {
  animeJobQueue : list AnimeJob;
  mangaJobQueue : list MangaJob;
  failedAnimeQueue : gmap Z AnimeListEntry;
  failedMangaQueue : gmap Z MangaListEntry;
  trackedAnimeMap : gmap Z TrackedMedia;
  trackedMangaMap : gmap Z TrackedMedia;
  manager : ManagerImpl;
  shouldUpdateLocalCollections : bool;
  doneUpdatingLocalCollections : nat
}.

Definition jobQueueCapacity : nat := 100.
Definition doneCapacity : nat := 1.

Definition withLocalDb (db : LocalDb) (m : ManagerImpl) : ManagerImpl :=
  {| animeCollection := animeCollection m;
     mangaCollection := mangaCollection m;
     localAnimeCollection := localAnimeCollection m;
     localMangaCollection := localMangaCollection m;
     localFiles := localFiles m;
     downloadedChapterContainers := downloadedChapterContainers m;
     localDb := db;
     localAssets := localAssets m;
     fetches := fetches m;
     logger := logger m |}.

Definition withLocalAssets (a : AssetStore) (m : ManagerImpl) : ManagerImpl :=
  {| animeCollection := animeCollection m;
     mangaCollection := mangaCollection m;
     localAnimeCollection := localAnimeCollection m;
     localMangaCollection := localMangaCollection m;
     localFiles := localFiles m;
     downloadedChapterContainers := downloadedChapterContainers m;
     localDb := localDb m;
     localAssets := a;
     fetches := fetches m;
     logger := logger m |}.

Definition withLocalAnimeCollection (c : option AnimeCollection) (m : ManagerImpl) : ManagerImpl :=
  {| animeCollection := animeCollection m;
     mangaCollection := mangaCollection m;
     localAnimeCollection := c;
     localMangaCollection := localMangaCollection m;
     localFiles := localFiles m;
     downloadedChapterContainers := downloadedChapterContainers m;
     localDb := localDb m;
     localAssets := localAssets m;
     fetches := fetches m;
     logger := logger m |}.

Definition withLocalMangaCollection (c : option MangaCollection) (m : ManagerImpl) : ManagerImpl :=
  {| animeCollection := animeCollection m;
     mangaCollection := mangaCollection m;
     localAnimeCollection := localAnimeCollection m;
     localMangaCollection := c;
     localFiles := localFiles m;
     downloadedChapterContainers := downloadedChapterContainers m;
     localDb := localDb m;
     localAssets := localAssets m;
     fetches := fetches m;
     logger := logger m |}.

Definition recordFetch (f : Fetch) (m : ManagerImpl) : ManagerImpl :=
  {| animeCollection := animeCollection m;
     mangaCollection := mangaCollection m;
     localAnimeCollection := localAnimeCollection m;
     localMangaCollection := localMangaCollection m;
     localFiles := localFiles m;
     downloadedChapterContainers := downloadedChapterContainers m;
     localDb := localDb m;
     localAssets := localAssets m;
     fetches := fetches m ++ [f];
     logger := logger m |}.

Definition logMsg (lvl : LogLevel) (msg : string) (err : option error) (m : ManagerImpl) : ManagerImpl :=
  {| animeCollection := animeCollection m;
     mangaCollection := mangaCollection m;
     localAnimeCollection := localAnimeCollection m;
     localMangaCollection := localMangaCollection m;
     localFiles := localFiles m;
     downloadedChapterContainers := downloadedChapterContainers m;
     localDb := localDb m;
     localAssets := localAssets m;
     fetches := fetches m;
     logger := logger m ++ [{| Level := lvl; Message := msg; Err := err |}] |}.

Definition withManager (m : ManagerImpl) (q : Syncer) : Syncer :=
  {| animeJobQueue := animeJobQueue q;
     mangaJobQueue := mangaJobQueue q;
     failedAnimeQueue := failedAnimeQueue q;
     failedMangaQueue := failedMangaQueue q;
     trackedAnimeMap := trackedAnimeMap q;
     trackedMangaMap := trackedMangaMap q;
     manager := m;
     shouldUpdateLocalCollections := shouldUpdateLocalCollections q;
     doneUpdatingLocalCollections := doneUpdatingLocalCollections q |}.

Definition withShouldUpdate (b : bool) (q : Syncer) : Syncer :=
  {| animeJobQueue := animeJobQueue q;
     mangaJobQueue := mangaJobQueue q;
     failedAnimeQueue := failedAnimeQueue q;
     failedMangaQueue := failedMangaQueue q;
     trackedAnimeMap := trackedAnimeMap q;
     trackedMangaMap := trackedMangaMap q;
     manager := manager q;
     shouldUpdateLocalCollections := b;
     doneUpdatingLocalCollections := doneUpdatingLocalCollections q |}.

Definition withDone (n : nat) (q : Syncer) : Syncer :=
  {| animeJobQueue := animeJobQueue q;
     mangaJobQueue := mangaJobQueue q;
     failedAnimeQueue := failedAnimeQueue q;
     failedMangaQueue := failedMangaQueue q;
     trackedAnimeMap := trackedAnimeMap q;
     trackedMangaMap := trackedMangaMap q;
     manager := manager q;
     shouldUpdateLocalCollections := shouldUpdateLocalCollections q;
     doneUpdatingLocalCollections := n |}.

Definition withAnimeJobQueue (jobs : list AnimeJob) (q : Syncer) : Syncer :=
  {| animeJobQueue := jobs;
     mangaJobQueue := mangaJobQueue q;
     failedAnimeQueue := failedAnimeQueue q;
     failedMangaQueue := failedMangaQueue q;
     trackedAnimeMap := trackedAnimeMap q;
     trackedMangaMap := trackedMangaMap q;
     manager := manager q;
     shouldUpdateLocalCollections := shouldUpdateLocalCollections q;
     doneUpdatingLocalCollections := doneUpdatingLocalCollections q |}.

Definition withMangaJobQueue (jobs : list MangaJob) (q : Syncer) : Syncer :=
  {| animeJobQueue := animeJobQueue q;
     mangaJobQueue := jobs;
     failedAnimeQueue := failedAnimeQueue q;
     failedMangaQueue := failedMangaQueue q;
     trackedAnimeMap := trackedAnimeMap q;
     trackedMangaMap := trackedMangaMap q;
     manager := manager q;
     shouldUpdateLocalCollections := shouldUpdateLocalCollections q;
     doneUpdatingLocalCollections := doneUpdatingLocalCollections q |}.

Definition withFailedAnimeQueue (c : gmap Z AnimeListEntry) (q : Syncer) : Syncer :=
  {| animeJobQueue := animeJobQueue q;
     mangaJobQueue := mangaJobQueue q;
     failedAnimeQueue := c;
     failedMangaQueue := failedMangaQueue q;
     trackedAnimeMap := trackedAnimeMap q;
     trackedMangaMap := trackedMangaMap q;
     manager := manager q;
     shouldUpdateLocalCollections := shouldUpdateLocalCollections q;
     doneUpdatingLocalCollections := doneUpdatingLocalCollections q |}.

Definition withFailedMangaQueue (c : gmap Z MangaListEntry) (q : Syncer) : Syncer :=
  {| animeJobQueue := animeJobQueue q;
     mangaJobQueue := mangaJobQueue q;
     failedAnimeQueue := failedAnimeQueue q;
     failedMangaQueue := c;
     trackedAnimeMap := trackedAnimeMap q;
     trackedMangaMap := trackedMangaMap q;
     manager := manager q;
     shouldUpdateLocalCollections := shouldUpdateLocalCollections q;
     doneUpdatingLocalCollections := doneUpdatingLocalCollections q |}.

Definition qlog (lvl : LogLevel) (msg : string) (err : option error) (q : Syncer) : Syncer :=
  withManager (logMsg lvl msg err (manager q)) q.

(** What the Builder reads of a snapshot, anime or manga. *)
Record SnapshotAssets : Type := {
  MediaId : Z;
  BannerImagePath : string;
  CoverImagePath : string
}.

Definition animeAssets (s : AnimeSnapshot) : SnapshotAssets :=
  {| MediaId := AnimeMediaId s;
     BannerImagePath := AnimeBannerImagePath s;
     CoverImagePath := AnimeCoverImagePath s |}.

Definition mangaAssets (s : MangaSnapshot) : SnapshotAssets :=
  {| MediaId := MangaMediaId s;
     BannerImagePath := MangaBannerImagePath s;
     CoverImagePath := MangaCoverImagePath s |}.

(** [for _, snapshot := range snapshots { m[snapshot.MediaId] = snapshot }] *)
Definition snapshotMapOf (snapshots : list SnapshotAssets) : gmap Z SnapshotAssets :=
  fold_left (fun m snapshot => <[MediaId snapshot := snapshot]> m) snapshots ∅.

(** ** A concrete library

    One user, two anime and one manga on the remote lists, used to evaluate
    the definitions below on explicit inputs. *)
Module Scenario.

Local Open Scope Z_scope.

Definition FormatAssetUrl (mId : Z) (path : string) : option string :=
  Some ("/assets/" +:+ pretty mId +:+ "/" +:+ path).

Definition DeepCopy (m : BaseMedia) : BaseMedia := m.

Definition media (mId : Z) : BaseMedia :=
  {| ID := mId;
     BannerImage := Some "https://img.example/banner.jpg";
     CoverImage := Some {| ExtraLarge := Some "https://img.example/xl.jpg";
                           Large := Some "https://img.example/l.jpg";
                           Medium := Some "https://img.example/m.jpg";
                           Color := Some "#aabbcc" |};
     Extra := [("title", "Example")] |}.

Definition entry (mId : Z) (st : string) : ListEntry :=
  {| EntryID := mId + 1000;
     Score := Some 8;
     Progress := Some 2;
     EntryStatus := Some st;
     Notes := None;
     Repeat := Some 0;
     Private := Some false;
     StartedAt := Some {| Year := Some 2024; Month := Some 4; Day := None |};
     CompletedAt := None;
     Media := media mId |}.

Definition listOf (st : option string) (name : string) (custom : bool)
    (entries : list ListEntry) : Lists :=
  {| Status := st; Name := Some name; IsCustomList := Some custom; Entries := entries |}.

Definition collection (lists : list Lists) : Collection :=
  {| ListCollection := Some {| CollectionLists := lists |} |}.

(** Anime 101 is on the list CURRENT and on the custom list Favorites;
    anime 102 is on the list PLANNING. *)
Definition remoteAnime : AnimeCollection :=
  collection [ listOf None "Favorites" true [entry 101 "CURRENT"];
               listOf (Some "CURRENT") "Watching" false [entry 101 "CURRENT"];
               listOf (Some "PLANNING") "Planning" false [entry 102 "PLANNING"] ].

Definition remoteManga : MangaCollection :=
  collection [ listOf (Some "CURRENT") "Reading" false [entry 201 "CURRENT"] ].

Definition metadata101 : AnimeMetadata :=
  {| Titles := [("en", "Example")];
     Episodes := {[ "1" := {| Image := "https://img.example/e1.jpg"; EpisodeTitle := "One" |} ;
                    "2" := {| Image := "https://img.example/e2.jpg"; EpisodeTitle := "Two" |} ;
                    "3" := {| Image := ""; EpisodeTitle := "Three" |} ]} |}.

Definition snapshot101 : AnimeSnapshot :=
  {| AnimeMediaId := 101;
     AnimeMetadataOf := metadata101;
     AnimeBannerImagePath := "banner.jpg";
     AnimeCoverImagePath := "cover.jpg";
     EpisodeImagePaths := {[ "1" := "episode-1.jpg" ]};
     AnimeReferenceKey := "101:1" |}.

Definition container201 : ChapterContainer :=
  {| ContainerMediaId := 201; Provider := "provider"; ChapterIds := ["c1"; "c2"] |}.

Definition snapshot201 : MangaSnapshot :=
  {| MangaMediaId := 201;
     ChapterContainers := [container201];
     MangaBannerImagePath := "banner.png";
     MangaCoverImagePath := "cover.png";
     MangaReferenceKey := "201:provider" |}.

Definition tracked (mId : Z) (kind : string) : TrackedMedia :=
  {| TrackedMediaId := mId; TrackedType := kind |}.

Definition store (failing : list DbOp) : LocalDb :=
  {| animeSnapshotRows := [snapshot101];
     mangaSnapshotRows := [snapshot201];
     localAnimeCollectionRow := None;
     localMangaCollectionRow := None;
     failingOps := failing |}.

Definition files101 : list LocalFile :=
  [ {| Path := "/library/example-01.mkv"; FileMediaId := 101 |};
    {| Path := "/library/example-02.mkv"; FileMediaId := 101 |} ].

Definition managerWith (manga : option MangaCollection) (files : list LocalFile)
    (containers : list ChapterContainer) (failing : list DbOp) : ManagerImpl :=
  {| animeCollection := Some remoteAnime;
     mangaCollection := manga;
     localAnimeCollection := None;
     localMangaCollection := None;
     localFiles := files;
     downloadedChapterContainers := containers;
     localDb := store failing;
     localAssets := {[ 101 := ["banner.jpg"; "cover.jpg"; "episode-1.jpg"];
                       201 := ["banner.png"; "cover.png"] ]};
     fetches := [];
     logger := [] |}.

(** The Syncer as [NewQueue] makes it, after [runDiffs] has set the tracked
    maps. *)
Definition syncerWith (m : ManagerImpl) : Syncer :=
  {| animeJobQueue := [];
     mangaJobQueue := [];
     failedAnimeQueue := ∅;
     failedMangaQueue := ∅;
     trackedAnimeMap := {[ 101 := tracked 101 "anime" ]};
     trackedMangaMap := {[ 201 := tracked 201 "manga" ]};
     manager := m;
     shouldUpdateLocalCollections := false;
     doneUpdatingLocalCollections := 0%nat |}.

(** The library with its files and chapter containers in place, over a store
    in which the operations [failing] fail. *)
Definition syncer (failing : list DbOp) : Syncer :=
  syncerWith (managerWith (Some remoteManga) files101 [container201] failing).

(** A later remote manga collection, from which manga 201 is gone. *)
Definition remoteMangaWithout201 : MangaCollection :=
  collection [ listOf (Some "CURRENT") "Reading" false [entry 202 "CURRENT"] ].

Definition animeDiff (t : DiffType) (mId : Z) (old : option AnimeSnapshot) : AnimeDiffResult :=
  {| AnimeDiffType := t; AnimeEntry := Some (entry mId "CURRENT"); AnimeSnapshotOf := old |}.

Definition mangaDiff (t : DiffType) (mId : Z) (old : option MangaSnapshot) : MangaDiffResult :=
  {| MangaDiffType := t; MangaEntry := Some (entry mId "CURRENT"); MangaSnapshotOf := old |}.

(** Collaborators: a metadata provider that knows anime 101, downloaders
    that name the files after what they hold, and their failing versions. *)
Definition GetAnimeMetadata (mId : Z) : AnimeMetadata + error :=
  if bool_decide (mId = 101) then inl metadata101 else inr "metadata: not found".

Definition GetAnimeMetadataDown (mId : Z) : AnimeMetadata + error :=
  inr "metadata: network unreachable".

Definition addFiles (mId : Z) (files : list string) (assets : AssetStore) : AssetStore :=
  <[mId := default [] (assets !! mId) ++ files]> assets.

Definition episodeFiles (urls : gmap string string) : gmap string string :=
  map_imap (fun k _ => Some ("episode-" +:+ k +:+ ".jpg")) urls.

Definition DownloadAnimeEpisodeImages (assets : AssetStore) (mId : Z)
    (urls : gmap string string) : AssetStore * (gmap string string * bool) :=
  (addFiles mId (snd <$> map_to_list (episodeFiles urls)) assets, (episodeFiles urls, true)).

Definition DownloadAnimeEpisodeImagesDown (assets : AssetStore) (mId : Z)
    (urls : gmap string string) : AssetStore * (gmap string string * bool) :=
  (assets, (∅, false)).

Definition DownloadAnimeImages (assets : AssetStore) (e : AnimeListEntry)
    (animeMetadata : AnimeMetadata) :
    AssetStore * (string * string * gmap string string * bool) :=
  let episodes :=
    episodeFiles (omap (fun ep => if bool_decide (Image ep = "") then None else Some (Image ep))
                       (Episodes animeMetadata)) in
  (addFiles (ID (Media e)) ("banner.jpg" :: "cover.jpg" :: (snd <$> map_to_list episodes)) assets,
   ("banner.jpg", "cover.jpg", episodes, true)).

Definition DownloadAnimeImagesDown (assets : AssetStore) (e : AnimeListEntry)
    (animeMetadata : AnimeMetadata) :
    AssetStore * (string * string * gmap string string * bool) :=
  (assets, ("", "", ∅, false)).

Definition DownloadMangaImages (assets : AssetStore) (e : MangaListEntry) :
    AssetStore * (string * string * bool) :=
  (addFiles (ID (Media e)) ["banner.png"; "cover.png"] assets, ("banner.png", "cover.png", true)).

Definition DownloadMangaImagesDown (assets : AssetStore) (e : MangaListEntry) :
    AssetStore * (string * string * bool) :=
  (assets, ("", "", false)).

(** The first entry of the collection, in list order, whose media has the
    given ID. *)
Definition GetListEntryFromMangaId (c : MangaCollection) (mId : Z) : option MangaListEntry :=
  List.find (fun e => bool_decide (GetID (GetMedia e) = mId))
            (concat (map GetEntries (GetLists (ListCollection c)))).

Definition GetAnimeReferenceKey (m : BaseAnime) (files : list LocalFile) : string :=
  String.concat ";"
    (Path <$> List.filter (fun f => bool_decide (FileMediaId f = ID m)) files).

Definition GetMangaReferenceKey (m : BaseManga) (containers : list ChapterContainer) : string :=
  String.concat ";" (Provider <$> containers).

End Scenario.

(** ** The Builder over a heap of Go objects

    [synchronizeCollections] once more, this time with the pointers of the
    Go data: the remote collections are objects of a heap, every [&T{...}]
    allocates, every assignment through a pointer is a store.  This is the
    model in which it can be said that the remote collections are not
    mutated. *)
Module Heap.

Abbreviation loc := nat.

(** The structs of package [anilist], with their pointer fields; a slice is
    the list of its elements. *)
Record CoverImageObj : Type := {
  ExtraLargePtr : option loc;
  LargePtr : option loc;
  MediumPtr : option loc;
  ColorPtr : option loc
}.

Record MediaObj : Type := {
  MediaID : Z;
  BannerImagePtr : option loc;
  CoverImagePtr : option loc;
  MediaExtra : list (string * string)
}.

Record DateObj : Type := {
  YearPtr : option loc;
  MonthPtr : option loc;
  DayPtr : option loc
}.

Record EntryObj : Type := {
  EntryObjID : Z;
  ScorePtr : option loc;
  ProgressPtr : option loc;
  EntryStatusPtr : option loc;
  NotesPtr : option loc;
  RepeatPtr : option loc;
  PrivatePtr : option loc;
  StartedAtPtr : option loc;
  CompletedAtPtr : option loc;
  MediaPtr : option loc
}.

Record ListsObj : Type := {
  StatusPtr : option loc;
  NamePtr : option loc;
  IsCustomListPtr : option loc;
  EntriesSlice : list loc
}.

Inductive Obj : Type :=
  | OStr (s : string)
  | OInt (z : Z)
  | OBool (b : bool)
  | OCoverImage (c : CoverImageObj)
  | OMedia (m : MediaObj)
  | ODate (d : DateObj)
  | OEntry (e : EntryObj)
  | OLists (l : ListsObj)
  | OListCollection (lists : list loc)
  | OCollection (mediaListCollection : option loc).

(** The heap: the object at address [l] is the element of index [l]. *)
Abbreviation Heap := (list Obj).

(** A computation returns a value or panics, and leaves a heap either way. *)
Inductive Result (A : Type) : Type :=
  | Ok (a : A) (h : Heap)
  | Panic (h : Heap).

Arguments Ok {A} a h.
Arguments Panic {A} h.

Definition heapOf {A : Type} (r : Result A) : Heap :=
  match r with
  | Ok _ h => h
  | Panic h => h
  end.

Definition M (A : Type) : Type := Heap → Result A.

Global Instance M_ret : MRet M := λ A a h, Ok a h.

Global Instance M_bind : MBind M := λ A B k c h,
  match c h with
  | Ok a h => k a h
  | Panic h => Panic h
  end.

Definition panic {A : Type} : M A := λ h, Panic h.

(** [&T{...}] *)
Definition alloc (o : Obj) : M loc := λ h, Ok (length h) (h ++ [o]).

(** [*p]; a dangling address panics. *)
Definition load (l : loc) : M Obj := λ h,
  match h !! l with
  | Some o => Ok o h
  | None => Panic h
  end.

(** [*p = o] *)
Definition store (l : loc) (o : Obj) : M unit := λ h,
  if decide (l < length h) then Ok () (<[l:=o]> h) else Panic h.

Definition loadStr (l : loc) : M string :=
  o ← load l; match o with OStr s => mret s | _ => panic end.

Definition loadCoverImage (l : loc) : M CoverImageObj :=
  o ← load l; match o with OCoverImage c => mret c | _ => panic end.

Definition loadMedia (l : loc) : M MediaObj :=
  o ← load l; match o with OMedia m => mret m | _ => panic end.

Definition loadDate (l : loc) : M DateObj :=
  o ← load l; match o with ODate d => mret d | _ => panic end.

Definition loadEntry (l : loc) : M EntryObj :=
  o ← load l; match o with OEntry e => mret e | _ => panic end.

Definition loadLists (l : loc) : M ListsObj :=
  o ← load l; match o with OLists ls => mret ls | _ => panic end.

Definition loadListCollection (l : loc) : M (list loc) :=
  o ← load l; match o with OListCollection lists => mret lists | _ => panic end.

Definition loadCollection (l : loc) : M (option loc) :=
  o ← load l; match o with OCollection mlc => mret mlc | _ => panic end.

(** [for _, x := range xs { body }] *)
Fixpoint forEach {A : Type} (xs : list A) (body : A → M unit) : M unit :=
  match xs with
  | [] => mret ()
  | x :: rest => _ ← body x; forEach rest body
  end.

Definition isScalar (o : Obj) : bool :=
  match o with
  | OStr _ | OInt _ | OBool _ => true
  | _ => false
  end.

(** Modelled from the spec: [ToNewPointer] returns nil for nil, and else a
    new pointer to a copy of the pointee ("deep-copy scalar entry fields").
    [sync.go] calls it on pointers to strings, numbers and booleans; another
    pointee is a type error, here a panic. *)
Definition ToNewPointer (p : option loc) : M (option loc) :=
  match p with
  | None => mret None
  | Some l =>
      o ← load l;
      if isScalar o then l' ← alloc o; mret (Some l') else panic
  end.

Section Program.

(** [FormatAssetUrl] gives the URL; the [*string] it returns is a new
    pointer.  The two deep copies are taken as they are called. *)
Variable FormatAssetUrl : Z → string → option string.
Variable BaseAnimeDeepCopy : option loc → M (option loc).
Variable BaseMangaDeepCopy : option loc → M (option loc).

Definition formatAssetUrl (mId : Z) (path : string) : M (option loc) :=
  match FormatAssetUrl mId path with
  | None => mret None
  | Some url => l ← alloc (OStr url); mret (Some l)
  end.

(** [c.MediaListCollection.GetLists()] *)
Definition remoteLists (_collection : loc) : M (list loc) :=
  mlc ← loadCollection _collection;
  match mlc with
  | None => mret []
  | Some l => loadListCollection l
  end.

(** [&anilist.AnimeCollection{MediaListCollection: &...{Lists: []...{}}}];
    returns the collection and its list collection. *)
Definition newCollection : M (loc * loc) :=
  mlc ← alloc (OListCollection []);
  c ← alloc (OCollection (Some mlc));
  mret (c, mlc).

(** [local.MediaListCollection.Lists = append(local.MediaListCollection.Lists, list)] *)
Definition appendList (mlc : loc) (list : loc) : M unit :=
  lists ← loadListCollection mlc;
  store mlc (OListCollection (lists ++ [list])).

(** The body of "Re-create all collection lists, without entries". *)
Definition createList (mlc : loc) (_list : loc) : M unit :=
  _l ← loadLists _list;
  match StatusPtr _l with
  | None => mret ()
  | Some _ =>
      status ← ToNewPointer (StatusPtr _l);
      name ← ToNewPointer (NamePtr _l);
      isCustomList ← ToNewPointer (IsCustomListPtr _l);
      list ← alloc (OLists {| StatusPtr := status; NamePtr := name;
                              IsCustomListPtr := isCustomList; EntriesSlice := [] |});
      appendList mlc list
  end.

Definition newDate (d : option loc) : M (option loc) :=
  match d with
  | None => mret None
  | Some l =>
      _d ← loadDate l;
      year ← ToNewPointer (YearPtr _d);
      month ← ToNewPointer (MonthPtr _d);
      day ← ToNewPointer (DayPtr _d);
      l' ← alloc (ODate {| YearPtr := year; MonthPtr := month; DayPtr := day |});
      mret (Some l')
  end.

(** [edited.BannerImage = url]; a nil [edited] panics. *)
Definition setBannerImage (edited : option loc) (url : option loc) : M unit :=
  match edited with
  | None => panic
  | Some l =>
      m ← loadMedia l;
      store l (OMedia {| MediaID := MediaID m; BannerImagePtr := url;
                         CoverImagePtr := CoverImagePtr m; MediaExtra := MediaExtra m |})
  end.

(** [edited.CoverImage = cover] *)
Definition setCoverImage (edited : option loc) (cover : option loc) : M unit :=
  match edited with
  | None => panic
  | Some l =>
      m ← loadMedia l;
      store l (OMedia {| MediaID := MediaID m; BannerImagePtr := BannerImagePtr m;
                         CoverImagePtr := cover; MediaExtra := MediaExtra m |})
  end.

Section Kind.

Variable DeepCopy : option loc → M (option loc).

(** From the deep copy of the media to the new entry. *)
Definition newEntry (snapshot : SnapshotAssets) (_entry : loc) : M loc :=
  _e ← loadEntry _entry;
  edited ← DeepCopy (MediaPtr _e);
  banner ← formatAssetUrl (MediaId snapshot) (BannerImagePath snapshot);
  _ ← setBannerImage edited banner;
  extraLarge ← formatAssetUrl (MediaId snapshot) (CoverImagePath snapshot);
  large ← formatAssetUrl (MediaId snapshot) (CoverImagePath snapshot);
  medium ← formatAssetUrl (MediaId snapshot) (CoverImagePath snapshot);
  color ← formatAssetUrl (MediaId snapshot) (CoverImagePath snapshot);
  cover ← alloc (OCoverImage {| ExtraLargePtr := extraLarge; LargePtr := large;
                                MediumPtr := medium; ColorPtr := color |});
  _ ← setCoverImage edited (Some cover);
  startedAt ← newDate (StartedAtPtr _e);
  completedAt ← newDate (CompletedAtPtr _e);
  score ← ToNewPointer (ScorePtr _e);
  progress ← ToNewPointer (ProgressPtr _e);
  status ← ToNewPointer (EntryStatusPtr _e);
  notes ← ToNewPointer (NotesPtr _e);
  repeat ← ToNewPointer (RepeatPtr _e);
  private ← ToNewPointer (PrivatePtr _e);
  alloc (OEntry {| EntryObjID := EntryObjID _e;
                   ScorePtr := score;
                   ProgressPtr := progress;
                   EntryStatusPtr := status;
                   NotesPtr := notes;
                   RepeatPtr := repeat;
                   PrivatePtr := private;
                   StartedAtPtr := startedAt;
                   CompletedAtPtr := completedAt;
                   MediaPtr := edited |}).

(** [list.Entries = append(list.Entries, entry)] *)
Definition appendEntry (list : loc) (entry : loc) : M unit :=
  l ← loadLists list;
  store list (OLists {| StatusPtr := StatusPtr l; NamePtr := NamePtr l;
                        IsCustomListPtr := IsCustomListPtr l;
                        EntriesSlice := EntriesSlice l ++ [entry] |}).

(** "Add the anime to the right list" *)
Fixpoint addToRightList (_status : loc) (snapshot : SnapshotAssets) (_entry : loc)
    (lists : list loc) : M unit :=
  match lists with
  | [] => mret ()
  | list :: rest =>
      l ← loadLists list;
      match StatusPtr l with
      | None => addToRightList _status snapshot _entry rest
      | Some status =>
          s ← loadStr status;
          _s ← loadStr _status;
          if bool_decide (s ≠ _s)
          then addToRightList _status snapshot _entry rest
          else entry ← newEntry snapshot _entry; appendEntry list entry
      end
  end.

(** [e.GetMedia().GetID()]; the getters give 0 through a nil media. *)
Definition getMediaID (_e : EntryObj) : M Z :=
  match MediaPtr _e with
  | None => mret 0%Z
  | Some l => m ← loadMedia l; mret (MediaID m)
  end.

Definition addEntry (tracked : gmap Z TrackedMedia) (snapshotMap : gmap Z SnapshotAssets)
    (mlc : loc) (_status : loc) (_entry : loc) : M unit :=
  _e ← loadEntry _entry;
  mId ← getMediaID _e;
  match tracked !! mId with
  | None => mret ()
  | Some _ =>
      match snapshotMap !! mId with
      | None => mret ()
      | Some snapshot =>
          lists ← loadListCollection mlc;
          addToRightList _status snapshot _entry lists
      end
  end.

Definition addEntries (tracked : gmap Z TrackedMedia) (snapshotMap : gmap Z SnapshotAssets)
    (mlc : loc) (_lists : list loc) : M unit :=
  forEach _lists (λ _list,
    _l ← loadLists _list;
    match StatusPtr _l with
    | None => mret ()
    | Some _status => forEach (EntriesSlice _l) (addEntry tracked snapshotMap mlc _status)
    end).

(** "Create local anime collection", under its guard. *)
Definition fillCollection (tracked : gmap Z TrackedMedia) (snapshots : list SnapshotAssets)
    (_collection : loc) (mlc : loc) : M unit :=
  if (0 <? length snapshots)%nat then
    _lists ← remoteLists _collection;
    addEntries tracked (snapshotMapOf snapshots) mlc _lists
  else mret ().

End Kind.

(** [synchronizeCollections], from the two remote collections to the two
    local ones, before they are saved. *)
Definition synchronizeCollections
    (trackedAnimeMap trackedMangaMap : gmap Z TrackedMedia)
    (animeSnapshots mangaSnapshots : list SnapshotAssets)
    (_animeCollection _mangaCollection : loc) : M (loc * loc) :=
  '(localAnimeCollection, animeLists) ← newCollection;
  '(localMangaCollection, mangaLists) ← newCollection;
  _animeLists ← remoteLists _animeCollection;
  _ ← forEach _animeLists (createList animeLists);
  _mangaLists ← remoteLists _mangaCollection;
  _ ← forEach _mangaLists (createList mangaLists);
  _ ← fillCollection BaseAnimeDeepCopy trackedAnimeMap animeSnapshots
        _animeCollection animeLists;
  _ ← fillCollection BaseMangaDeepCopy trackedMangaMap mangaSnapshots
        _mangaCollection mangaLists;
  mret (localAnimeCollection, localMangaCollection).

End Program.

(** Modelled from the spec: [BaseAnimeDeepCopy] and [BaseMangaDeepCopy]
    deep-copy "the direct media object": the media, its cover image and
    their scalars get new addresses. *)
Definition BaseMediaDeepCopy (p : option loc) : M (option loc) :=
  match p with
  | None => mret None
  | Some l =>
      m ← loadMedia l;
      banner ← ToNewPointer (BannerImagePtr m);
      cover ←
        match CoverImagePtr m with
        | None => mret None
        | Some cl =>
            c ← loadCoverImage cl;
            extraLarge ← ToNewPointer (ExtraLargePtr c);
            large ← ToNewPointer (LargePtr c);
            medium ← ToNewPointer (MediumPtr c);
            color ← ToNewPointer (ColorPtr c);
            cl' ← alloc (OCoverImage {| ExtraLargePtr := extraLarge; LargePtr := large;
                                        MediumPtr := medium; ColorPtr := color |});
            mret (Some cl')
        end;
      l' ← alloc (OMedia {| MediaID := MediaID m; BannerImagePtr := banner;
                            CoverImagePtr := cover; MediaExtra := MediaExtra m |});
      mret (Some l')
  end.

(** *** Reading a collection off the heap

    The value that the objects reachable from an address stand for; [None]
    when an object is missing or is not of the kind its place asks for. *)

Definition readStr (h : Heap) (p : option loc) : option (option string) :=
  match p with
  | None => Some None
  | Some l => match h !! l with Some (OStr s) => Some (Some s) | _ => None end
  end.

Definition readInt (h : Heap) (p : option loc) : option (option Z) :=
  match p with
  | None => Some None
  | Some l => match h !! l with Some (OInt z) => Some (Some z) | _ => None end
  end.

Definition readBool (h : Heap) (p : option loc) : option (option bool) :=
  match p with
  | None => Some None
  | Some l => match h !! l with Some (OBool b) => Some (Some b) | _ => None end
  end.

Definition readCoverImage (h : Heap) (p : option loc) : option (option BaseMedia_CoverImage) :=
  match p with
  | None => Some None
  | Some l =>
      match h !! l with
      | Some (OCoverImage c) =>
          extraLarge ← readStr h (ExtraLargePtr c);
          large ← readStr h (LargePtr c);
          medium ← readStr h (MediumPtr c);
          color ← readStr h (ColorPtr c);
          Some (Some {| ExtraLarge := extraLarge; Large := large;
                        Medium := medium; Color := color |})
      | _ => None
      end
  end.

Definition readMedia (h : Heap) (p : option loc) : option BaseMedia :=
  match p with
  | None => None
  | Some l =>
      match h !! l with
      | Some (OMedia m) =>
          banner ← readStr h (BannerImagePtr m);
          cover ← readCoverImage h (CoverImagePtr m);
          Some {| ID := MediaID m; BannerImage := banner;
                  CoverImage := cover; Extra := MediaExtra m |}
      | _ => None
      end
  end.

Definition readDate (h : Heap) (p : option loc) : option (option FuzzyDate) :=
  match p with
  | None => Some None
  | Some l =>
      match h !! l with
      | Some (ODate d) =>
          year ← readInt h (YearPtr d);
          month ← readInt h (MonthPtr d);
          day ← readInt h (DayPtr d);
          Some (Some {| Year := year; Month := month; Day := day |})
      | _ => None
      end
  end.

Definition readEntry (h : Heap) (l : loc) : option ListEntry :=
  match h !! l with
  | Some (OEntry e) =>
      score ← readInt h (ScorePtr e);
      progress ← readInt h (ProgressPtr e);
      status ← readStr h (EntryStatusPtr e);
      notes ← readStr h (NotesPtr e);
      repeat ← readInt h (RepeatPtr e);
      private ← readBool h (PrivatePtr e);
      startedAt ← readDate h (StartedAtPtr e);
      completedAt ← readDate h (CompletedAtPtr e);
      media ← readMedia h (MediaPtr e);
      Some {| EntryID := EntryObjID e; Score := score; Progress := progress;
              EntryStatus := status; Notes := notes; Repeat := repeat;
              Private := private; StartedAt := startedAt;
              CompletedAt := completedAt; Media := media |}
  | _ => None
  end.

Definition readLists (h : Heap) (l : loc) : option Lists :=
  match h !! l with
  | Some (OLists o) =>
      status ← readStr h (StatusPtr o);
      name ← readStr h (NamePtr o);
      isCustomList ← readBool h (IsCustomListPtr o);
      entries ← mapM (readEntry h) (EntriesSlice o);
      Some {| Status := status; Name := name;
              IsCustomList := isCustomList; Entries := entries |}
  | _ => None
  end.

Definition readCollection (h : Heap) (l : loc) : option Collection :=
  match h !! l with
  | Some (OCollection None) => Some {| ListCollection := None |}
  | Some (OCollection (Some mlc)) =>
      match h !! mlc with
      | Some (OListCollection lists) =>
          lists ← mapM (readLists h) lists;
          Some {| ListCollection := Some {| CollectionLists := lists |} |}
      | _ => None
      end
  | _ => None
  end.

(** *** Laying a collection out on the heap

    The objects that stand for a collection, allocated leaves first; used to
    set up heaps to run the Builder on. *)

Definition writeStr (v : option string) : M (option loc) :=
  match v with
  | None => mret None
  | Some s => l ← alloc (OStr s); mret (Some l)
  end.

Definition writeInt (v : option Z) : M (option loc) :=
  match v with
  | None => mret None
  | Some z => l ← alloc (OInt z); mret (Some l)
  end.

Definition writeBool (v : option bool) : M (option loc) :=
  match v with
  | None => mret None
  | Some b => l ← alloc (OBool b); mret (Some l)
  end.

Definition writeCoverImage (v : option BaseMedia_CoverImage) : M (option loc) :=
  match v with
  | None => mret None
  | Some c =>
      extraLarge ← writeStr (ExtraLarge c);
      large ← writeStr (Large c);
      medium ← writeStr (Medium c);
      color ← writeStr (Color c);
      l ← alloc (OCoverImage {| ExtraLargePtr := extraLarge; LargePtr := large;
                                MediumPtr := medium; ColorPtr := color |});
      mret (Some l)
  end.

Definition writeMedia (m : BaseMedia) : M loc :=
  banner ← writeStr (BannerImage m);
  cover ← writeCoverImage (CoverImage m);
  alloc (OMedia {| MediaID := ID m; BannerImagePtr := banner;
                   CoverImagePtr := cover; MediaExtra := Extra m |}).

Definition writeDate (v : option FuzzyDate) : M (option loc) :=
  match v with
  | None => mret None
  | Some d =>
      year ← writeInt (Year d);
      month ← writeInt (Month d);
      day ← writeInt (Day d);
      l ← alloc (ODate {| YearPtr := year; MonthPtr := month; DayPtr := day |});
      mret (Some l)
  end.

Definition writeEntry (e : ListEntry) : M loc :=
  score ← writeInt (Score e);
  progress ← writeInt (Progress e);
  status ← writeStr (EntryStatus e);
  notes ← writeStr (Notes e);
  repeat ← writeInt (Repeat e);
  private ← writeBool (Private e);
  startedAt ← writeDate (StartedAt e);
  completedAt ← writeDate (CompletedAt e);
  media ← writeMedia (Media e);
  alloc (OEntry {| EntryObjID := EntryID e; ScorePtr := score; ProgressPtr := progress;
                   EntryStatusPtr := status; NotesPtr := notes; RepeatPtr := repeat;
                   PrivatePtr := private; StartedAtPtr := startedAt;
                   CompletedAtPtr := completedAt; MediaPtr := Some media |}).

Definition writeLists (l : Lists) : M loc :=
  status ← writeStr (Status l);
  name ← writeStr (Name l);
  isCustomList ← writeBool (IsCustomList l);
  entries ← mapM writeEntry (Entries l);
  alloc (OLists {| StatusPtr := status; NamePtr := name;
                   IsCustomListPtr := isCustomList; EntriesSlice := entries |}).

Definition writeCollection (c : Collection) : M loc :=
  match ListCollection c with
  | None => alloc (OCollection None)
  | Some mlc =>
      lists ← mapM writeLists (CollectionLists mlc);
      l ← alloc (OListCollection lists);
      alloc (OCollection (Some l))
  end.

End Heap.

(** ** The Syncer *)

Section Engine.

(** Collaborators of [sync.go] whose code is not part of the sources at
    hand.  Each is taken as it is called; the image and metadata fetches
    also thread the Asset Store they write to. *)
Variable FormatAssetUrl : Z -> string -> option string.
Variable BaseAnimeDeepCopy : BaseAnime -> BaseAnime.
Variable BaseMangaDeepCopy : BaseManga -> BaseManga.
Variable GetAnimeMetadata : Z -> AnimeMetadata + error.
Variable DownloadAnimeImages :
  AssetStore -> AnimeListEntry -> AnimeMetadata ->
  AssetStore * (string * string * gmap string string * bool).
Variable DownloadAnimeEpisodeImages :
  AssetStore -> Z -> gmap string string -> AssetStore * (gmap string string * bool).
Variable DownloadMangaImages :
  AssetStore -> MangaListEntry -> AssetStore * (string * string * bool).
Variable GetListEntryFromMangaId : MangaCollection -> Z -> option MangaListEntry.
Variable GetAnimeReferenceKey : BaseAnime -> list LocalFile -> string.
Variable GetMangaReferenceKey : BaseManga -> list ChapterContainer -> string.

(** *** synchronizeCollections: the local collection builder *)

(** [ToNewPointer] allocates a pointer to a copy of the pointee; on values
    the copy is the value. *)
Definition ToNewPointer {A : Type} (p : option A) : option A :=
  match p with
  | Some v => Some v
  | None => None
  end.

Definition newList (_list : Lists) : Lists :=
  {| Status := ToNewPointer (Status _list);
     Name := ToNewPointer (Name _list);
     IsCustomList := ToNewPointer (IsCustomList _list);
     Entries := [] |}.

(** "Re-create all collection lists, without entries". *)
Definition createLists (_lists : list Lists) : list Lists :=
  fold_left
    (fun lists _list =>
       match GetStatus _list with
       | None => lists
       | Some _ => lists ++ [newList _list]
       end)
    _lists [].

Definition newDate (d : option FuzzyDate) : option FuzzyDate :=
  match d with
  | None => None
  | Some d =>
      Some {| Year := ToNewPointer (Year d);
              Month := ToNewPointer (Month d);
              Day := ToNewPointer (Day d) |}
  end.

Section Kind.

(** The anime and the manga loops differ in the deep copy they call and in
    the tracked map and snapshots they read. *)
Variable DeepCopy : BaseMedia -> BaseMedia.

Definition editedMedia (snapshot : SnapshotAssets) (_media : BaseMedia) : BaseMedia :=
  let edited := DeepCopy _media in
  {| ID := ID edited;
     BannerImage := FormatAssetUrl (MediaId snapshot) (BannerImagePath snapshot);
     CoverImage :=
       Some {| ExtraLarge := FormatAssetUrl (MediaId snapshot) (CoverImagePath snapshot);
               Large := FormatAssetUrl (MediaId snapshot) (CoverImagePath snapshot);
               Medium := FormatAssetUrl (MediaId snapshot) (CoverImagePath snapshot);
               Color := FormatAssetUrl (MediaId snapshot) (CoverImagePath snapshot) |};
     Extra := Extra edited |}.

Definition newEntry (snapshot : SnapshotAssets) (_entry : ListEntry) : ListEntry :=
  {| EntryID := EntryID _entry;
     Score := ToNewPointer (Score _entry);
     Progress := ToNewPointer (Progress _entry);
     EntryStatus := ToNewPointer (EntryStatus _entry);
     Notes := ToNewPointer (Notes _entry);
     Repeat := ToNewPointer (Repeat _entry);
     Private := ToNewPointer (Private _entry);
     StartedAt := newDate (StartedAt _entry);
     CompletedAt := newDate (CompletedAt _entry);
     Media := editedMedia snapshot (Media _entry) |}.

Definition appendEntry (entry : ListEntry) (list : Lists) : Lists :=
  {| Status := Status list;
     Name := Name list;
     IsCustomList := IsCustomList list;
     Entries := Entries list ++ [entry] |}.

(** "Add the anime to the right list": the loop over the local lists,
    which stops at the first list of the remote list's status. *)
Fixpoint addToRightList (_status : MediaListStatus) (snapshot : SnapshotAssets)
    (_entry : ListEntry) (lists : list Lists) : list Lists :=
  match lists with
  | [] => []
  | list :: rest =>
      match GetStatus list with
      | None => list :: addToRightList _status snapshot _entry rest
      | Some status =>
          if bool_decide (status ≠ _status)
          then list :: addToRightList _status snapshot _entry rest
          else appendEntry (newEntry snapshot _entry) list :: rest
      end
  end.

(** The body of the loop over the entries of one remote list. *)
Definition addEntry (tracked : gmap Z TrackedMedia) (snapshotMap : gmap Z SnapshotAssets)
    (_status : MediaListStatus) (lists : list Lists) (_entry : ListEntry) : list Lists :=
  match tracked !! GetID (GetMedia _entry) with
  | None => lists
  | Some _ =>
      match snapshotMap !! GetID (GetMedia _entry) with
      | None => lists
      | Some snapshot => addToRightList _status snapshot _entry lists
      end
  end.

(** The loop over the remote lists. *)
Definition addEntries (tracked : gmap Z TrackedMedia) (snapshotMap : gmap Z SnapshotAssets)
    (_lists : list Lists) (lists : list Lists) : list Lists :=
  fold_left
    (fun lists _list =>
       match GetStatus _list with
       | None => lists
       | Some _status =>
           fold_left (addEntry tracked snapshotMap _status) (GetEntries _list) lists
       end)
    _lists lists.

(** One kind's share of [synchronizeCollections], up to the save. *)
Definition buildLocalCollection (tracked : gmap Z TrackedMedia)
    (snapshots : list SnapshotAssets) (_collection : Collection) : Collection :=
  let snapshotMap := snapshotMapOf snapshots in
  let lists := createLists (GetLists (ListCollection _collection)) in
  let lists :=
    if (0 <? length snapshots)%nat
    then addEntries tracked snapshotMap (GetLists (ListCollection _collection)) lists
    else lists in
  {| ListCollection := Some {| CollectionLists := lists |} |}.

End Kind.

Definition panicError (what : string) : error := what.

(** [synchronizeCollections].  [MustGet] panics on an absent collection;
    the deferred [HandlePanicInModuleWithError] turns the panic into the
    returned error. *)
Definition synchronizeCollections (q : Syncer) : option error * Syncer :=
  let q := qlog LevelTrace "sync: Synchronizing local collections" None q in
  match animeCollection (manager q) with
  | None => (Some (panicError "sync/synchronizeCollections"), q)
  | Some _animeCollection =>
  match mangaCollection (manager q) with
  | None => (Some (panicError "sync/synchronizeCollections"), q)
  | Some _mangaCollection =>
      let animeSnapshots := fst (GetAnimeSnapshots (localDb (manager q))) in
      let mangaSnapshots := fst (GetMangaSnapshots (localDb (manager q))) in
      let localAnimeCollection :=
        buildLocalCollection BaseAnimeDeepCopy (trackedAnimeMap q)
          (map animeAssets animeSnapshots) _animeCollection in
      let localMangaCollection :=
        buildLocalCollection BaseMangaDeepCopy (trackedMangaMap q)
          (map mangaAssets mangaSnapshots) _mangaCollection in
      match SaveAnimeCollection localAnimeCollection (localDb (manager q)) with
      | (Some err, db) => (Some err, withManager (withLocalDb db (manager q)) q)
      | (None, db) =>
          let q := withManager (withLocalDb db (manager q)) q in
          let q := withManager (withLocalAnimeCollection (Some localAnimeCollection) (manager q)) q in
          match SaveMangaCollection localMangaCollection (localDb (manager q)) with
          | (Some err, db) => (Some err, withManager (withLocalDb db (manager q)) q)
          | (None, db) =>
              let q := withManager (withLocalDb db (manager q)) q in
              let q := withManager (withLocalMangaCollection (Some localMangaCollection) (manager q)) q in
              let q := qlog LevelDebug "sync: Synchronized local collections" None q in
              (None, q)
          end
      end
  end
  end.

(** *** The failed queues *)

(** [result.Cache.Set] stores the value under the key, over any earlier one. *)
Definition sendAnimeToFailedQueue (entry : AnimeListEntry) (q : Syncer) : Syncer :=
  withFailedAnimeQueue (<[ID (Media entry) := entry]> (failedAnimeQueue q)) q.

Definition sendMangaToFailedQueue (entry : MangaListEntry) (q : Syncer) : Syncer :=
  withFailedMangaQueue (<[ID (Media entry) := entry]> (failedMangaQueue q)) q.

(** *** synchronizeAnime and synchronizeManga *)

(** Modelled from the spec: [ManagerImpl.removeAnime] and
    [ManagerImpl.removeManga] delete the snapshot of the media and its
    assets ("snapshot + assets"), and fail only on store I/O. *)
Definition removeAnime (mId : Z) (m : ManagerImpl) : option error * ManagerImpl :=
  match DeleteAnimeSnapshot mId (localDb m) with
  | (Some err, db) => (Some err, withLocalDb db m)
  | (None, db) => (None, withLocalAssets (delete mId (localAssets m)) (withLocalDb db m))
  end.

Definition removeManga (mId : Z) (m : ManagerImpl) : option error * ManagerImpl :=
  match DeleteMangaSnapshot mId (localDb m) with
  | (Some err, db) => (Some err, withLocalDb db m)
  | (None, db) => (None, withLocalAssets (delete mId (localAssets m)) (withLocalDb db m))
  end.

(** [lo.Find(localFiles, func(f) bool { return f.MediaId == mId })] *)
Definition foundLocalFiles (mId : Z) (files : list LocalFile) : bool :=
  match List.find (fun f => bool_decide (FileMediaId f = mId)) files with
  | Some _ => true
  | None => false
  end.

(** "Get the current episode image URLs": the episodes of the metadata with
    a non-empty image, by episode key. *)
Definition currentEpisodeImageUrls (animeMetadata : AnimeMetadata) : gmap string string :=
  omap (fun episode => if bool_decide (Image episode = "") then None else Some (Image episode))
       (Episodes animeMetadata).

(** "the ones that are not in the snapshot" *)
Definition episodeImageUrlsToDownload (animeMetadata : AnimeMetadata)
    (paths : gmap string string) : gmap string string :=
  filter (fun kv => paths !! kv.1 = None) (currentEpisodeImageUrls animeMetadata).

(** [for episodeNum, path := range episodeImagePaths { snapshot.EpisodeImagePaths[episodeNum] = path }] *)
Definition addEpisodeImagePaths (episodeImagePaths paths : gmap string string) : gmap string string :=
  episodeImagePaths ∪ paths.

Definition withAssetsOf (a : AssetStore) (q : Syncer) : Syncer :=
  withManager (withLocalAssets a (manager q)) q.

Definition fetched (f : Fetch) (q : Syncer) : Syncer :=
  withManager (recordFetch f (manager q)) q.

(** The save that ends both the "missing" and the "outdated" branch. *)
Definition saveAnimeSnapshot (entry : AnimeListEntry) (snapshot : AnimeSnapshot) (q : Syncer) : Syncer :=
  match SaveAnimeSnapshot snapshot (localDb (manager q)) with
  | (Some err, db) =>
      let q := withManager (withLocalDb db (manager q)) q in
      let q := sendAnimeToFailedQueue entry q in
      qlog LevelError "sync: Failed to save anime snapshot for anime %d" (Some err) q
  | (None, db) => withManager (withLocalDb db (manager q)) q
  end.

Definition saveMangaSnapshot (entry : MangaListEntry) (snapshot : MangaSnapshot) (q : Syncer) : Syncer :=
  match SaveMangaSnapshot snapshot (localDb (manager q)) with
  | (Some err, db) =>
      let q := withManager (withLocalDb db (manager q)) q in
      let q := sendMangaToFailedQueue entry q in
      qlog LevelError "sync: Failed to save manga snapshot for manga %d" (Some err) q
  | (None, db) => withManager (withLocalDb db (manager q)) q
  end.

(** "The snapshot is missing" *)
Definition synchronizeMissingAnime (entry : AnimeListEntry) (animeMetadata : AnimeMetadata)
    (q : Syncer) : Syncer :=
  let q := fetched (FetchAnimeImages entry animeMetadata) q in
  let '(assets, (bannerImage, coverImage, episodeImagePaths, ok)) :=
    DownloadAnimeImages (localAssets (manager q)) entry animeMetadata in
  let q := withAssetsOf assets q in
  if negb ok then sendAnimeToFailedQueue entry q
  else
    let snapshot :=
      {| AnimeMediaId := ID (Media entry);
         AnimeMetadataOf := LocalAnimeMetadata animeMetadata;
         AnimeBannerImagePath := bannerImage;
         AnimeCoverImagePath := coverImage;
         EpisodeImagePaths := episodeImagePaths;
         AnimeReferenceKey := GetAnimeReferenceKey (Media entry) (localFiles (manager q)) |} in
    saveAnimeSnapshot entry snapshot q.

Definition withEpisodeImagePaths (paths : gmap string string) (s : AnimeSnapshot) : AnimeSnapshot :=
  {| AnimeMediaId := AnimeMediaId s;
     AnimeMetadataOf := AnimeMetadataOf s;
     AnimeBannerImagePath := AnimeBannerImagePath s;
     AnimeCoverImagePath := AnimeCoverImagePath s;
     EpisodeImagePaths := paths;
     AnimeReferenceKey := AnimeReferenceKey s |}.

(** "The snapshot metadata is outdated (local files have changed)" *)
Definition synchronizeOutdatedAnime (entry : AnimeListEntry) (animeMetadata : AnimeMetadata)
    (old : AnimeSnapshot) (q : Syncer) : Syncer :=
  let snapshot :=
    {| AnimeMediaId := AnimeMediaId old;
       AnimeMetadataOf := LocalAnimeMetadata animeMetadata;
       AnimeBannerImagePath := AnimeBannerImagePath old;
       AnimeCoverImagePath := AnimeCoverImagePath old;
       EpisodeImagePaths := EpisodeImagePaths old;
       AnimeReferenceKey := GetAnimeReferenceKey (Media entry) (localFiles (manager q)) |} in
  let toDownload := episodeImageUrlsToDownload animeMetadata (EpisodeImagePaths snapshot) in
  if (0 <? size toDownload)%nat then
    let q := fetched (FetchAnimeEpisodeImages (ID (Media entry)) toDownload) q in
    let '(assets, (episodeImagePaths, ok)) :=
      DownloadAnimeEpisodeImages (localAssets (manager q)) (ID (Media entry)) toDownload in
    let q := withAssetsOf assets q in
    if negb ok then sendAnimeToFailedQueue entry q
    else
      let snapshot :=
        withEpisodeImagePaths
          (addEpisodeImagePaths episodeImagePaths (EpisodeImagePaths snapshot)) snapshot in
      saveAnimeSnapshot entry snapshot q
  else saveAnimeSnapshot entry snapshot q.

(** [synchronizeAnime]. *)
Definition synchronizeAnime (diff : AnimeDiffResult) (q : Syncer) : Syncer :=
  match AnimeEntry diff with
  | None => q
  | Some entry =>
      let q := qlog LevelTrace "sync: Starting synchronization of anime %d, diff type: %+v" None q in
      if negb (foundLocalFiles (ID (Media entry)) (localFiles (manager q))) then
        let q := qlog LevelWarn
                   "sync: No local files found for anime %d, removing from the local database" None q in
        withManager (snd (removeAnime (ID (Media entry)) (manager q))) q
      else if bool_decide (AnimeDiffType diff = DiffTypeMissing)
              || bool_decide (AnimeDiffType diff = DiffTypeMetadata) then
        let q := fetched (FetchAnimeMetadata (ID (Media entry))) q in
        match GetAnimeMetadata (ID (Media entry)) with
        | inr err =>
            let q := sendAnimeToFailedQueue entry q in
            qlog LevelError "sync: Failed to get metadata for anime %d" (Some err) q
        | inl animeMetadata =>
            if bool_decide (AnimeDiffType diff = DiffTypeMissing) then
              synchronizeMissingAnime entry animeMetadata q
            else
              match AnimeSnapshotOf diff with
              | Some old =>
                  if bool_decide (AnimeDiffType diff = DiffTypeMetadata)
                  then synchronizeOutdatedAnime entry animeMetadata old q
                  else q
              | None => q
              end
        end
      else q
  end.

(** "Get all chapter containers for this manga" *)
Definition containersOf (mId : Z) (containers : list ChapterContainer) : list ChapterContainer :=
  List.filter (fun c => bool_decide (ContainerMediaId c = mId)) containers.

Definition synchronizeMissingManga (entry : MangaListEntry) (eContainers : list ChapterContainer)
    (q : Syncer) : Syncer :=
  let q := fetched (FetchMangaImages entry) q in
  let '(assets, (bannerImage, coverImage, ok)) :=
    DownloadMangaImages (localAssets (manager q)) entry in
  let q := withAssetsOf assets q in
  if negb ok then sendMangaToFailedQueue entry q
  else
    let snapshot :=
      {| MangaMediaId := ID (Media entry);
         ChapterContainers := eContainers;
         MangaBannerImagePath := bannerImage;
         MangaCoverImagePath := coverImage;
         MangaReferenceKey := GetMangaReferenceKey (Media entry) eContainers |} in
    saveMangaSnapshot entry snapshot q.

Definition synchronizeOutdatedManga (entry : MangaListEntry) (eContainers : list ChapterContainer)
    (old : MangaSnapshot) (q : Syncer) : Syncer :=
  let snapshot :=
    {| MangaMediaId := MangaMediaId old;
       ChapterContainers := eContainers;
       MangaBannerImagePath := MangaBannerImagePath old;
       MangaCoverImagePath := MangaCoverImagePath old;
       MangaReferenceKey := GetMangaReferenceKey (Media entry) eContainers |} in
  saveMangaSnapshot entry snapshot q.

(** [synchronizeManga]. *)
Definition synchronizeManga (diff : MangaDiffResult) (q : Syncer) : Syncer :=
  match MangaEntry diff with
  | None => q
  | Some entry =>
      let q := qlog LevelTrace "sync: Starting synchronization of manga %d, diff type: %+v" None q in
      match mangaCollection (manager q) with
      | None => q
      | Some collection =>
          match GetListEntryFromMangaId collection (ID (Media entry)) with
          | None => qlog LevelError "sync: Failed to get manga" None q
          | Some listEntry =>
              match EntryStatus listEntry with
              | None => q
              | Some _ =>
                  let eContainers :=
                    containersOf (ID (Media entry)) (downloadedChapterContainers (manager q)) in
                  if (length eContainers =? 0)%nat then
                    withManager (snd (removeManga (ID (Media entry)) (manager q))) q
                  else if bool_decide (MangaDiffType diff = DiffTypeMissing) then
                    synchronizeMissingManga entry eContainers q
                  else
                    match MangaSnapshotOf diff with
                    | Some old =>
                        if bool_decide (MangaDiffType diff = DiffTypeMetadata)
                        then synchronizeOutdatedManga entry eContainers old q
                        else q
                    | None => q
                    end
              end
          end
      end
  end.

(** *** The drain check *)

(** A call either returns or is left waiting on a full channel. *)
Inductive Outcome : Type :=
  | Returned (q : Syncer)
  | BlockedOnSend (q : Syncer).

Definition stateOf (o : Outcome) : Syncer :=
  match o with
  | Returned q => q
  | BlockedOnSend q => q
  end.

(** [err := q.synchronizeCollections(); if err != nil { log }] *)
Definition runBuilder (q : Syncer) : Syncer :=
  match synchronizeCollections q with
  | (Some err, q) => qlog LevelError "sync: Failed to synchronize collections" (Some err) q
  | (None, q) => q
  end.

(** [q.doneUpdatingLocalCollections <- struct{}{}] *)
Definition sendDone (q : Syncer) : Outcome :=
  if (doneUpdatingLocalCollections q <? doneCapacity)%nat
  then Returned (withDone (S (doneUpdatingLocalCollections q)) q)
  else BlockedOnSend q.

(** [checkAndUpdateLocalCollections], run with no other goroutine moving. *)
Definition checkAndUpdateLocalCollections (q : Syncer) : Outcome :=
  if shouldUpdateLocalCollections q then
    if (length (animeJobQueue q) =? 0)%nat && (length (mangaJobQueue q) =? 0)%nat then
      let q := runBuilder q in
      let q := withShouldUpdate false q in
      sendDone q
    else Returned q
  else Returned q.

(** *** The two workers

    [processAnimeJobs] and [processMangaJobs] run as two goroutines over the
    one Syncer.  The machine below interleaves their statements: a move is a
    statement of one worker, a send on a job queue by the goroutine that
    [runDiffs] starts, or a receive by the reader of
    [doneUpdatingLocalCollections].  A statement that would block (a receive
    on an empty queue, a send on a full one, [Lock] on a held mutex) is not
    enabled.  [synchronizeAnime], [synchronizeManga] and
    [synchronizeCollections] each run as one move. *)

Inductive Worker : Type := AnimeWorker | MangaWorker.

Global Instance Worker_eq_dec : EqDecision Worker.
Proof. solve_decision. Defined.

(** Where a worker stands in [for job := range queue { ... }] and, within
    it, in [checkAndUpdateLocalCollections]. *)
Inductive PC (J : Type) : Type :=
  | AtReceive
  | AtSetFlag (job : J)
  | AtSynchronize (job : J)
  | AtLock
  | AtCheckFlag
  | AtCheckAnimeQueue
  | AtCheckMangaQueue
  | AtBuild
  | AtClearFlag
  | AtSend
  | AtUnlock.

Arguments AtReceive {J}.
Arguments AtSetFlag {J} job.
Arguments AtSynchronize {J} job.
Arguments AtLock {J}.
Arguments AtCheckFlag {J}.
Arguments AtCheckAnimeQueue {J}.
Arguments AtCheckMangaQueue {J}.
Arguments AtBuild {J}.
Arguments AtClearFlag {J}.
Arguments AtSend {J}.
Arguments AtUnlock {J}.

Record Machine : Type := {
  shared : Syncer;
  mu : option Worker;
  animePC : PC AnimeJob;
  mangaPC : PC MangaJob
}.

(** What an observer of a run sees. *)
Inductive Event : Type :=
  | EvReceive (w : Worker)
  | EvDrained
  | EvCheck (w : Worker) (ok : bool)
  | EvPass (w : Worker)
  | EvSignal (w : Worker).

Global Instance Event_eq_dec : EqDecision Event.
Proof. solve_decision. Defined.

Inductive Move : Type :=
  | SendAnimeJob (job : AnimeJob)
  | SendMangaJob (job : MangaJob)
  | ReceiveDone
  | Step (w : Worker).

Definition queuesEmpty (q : Syncer) : bool :=
  (length (animeJobQueue q) =? 0)%nat && (length (mangaJobQueue q) =? 0)%nat.

Definition receiveAnimeJob (q : Syncer) : option (AnimeJob * Syncer) :=
  match animeJobQueue q with
  | [] => None
  | job :: rest => Some (job, withAnimeJobQueue rest q)
  end.

Definition receiveMangaJob (q : Syncer) : option (MangaJob * Syncer) :=
  match mangaJobQueue q with
  | [] => None
  | job :: rest => Some (job, withMangaJobQueue rest q)
  end.

(** One statement of a worker.  [EvDrained] marks the receive that leaves
    both queues empty. *)
Definition workerStep {J : Type} (w : Worker)
    (receive : Syncer → option (J * Syncer)) (synchronize : J → Syncer → Syncer)
    (pc : PC J) (holder : option Worker) (q : Syncer) :
    option (PC J * option Worker * Syncer * list Event) :=
  match pc with
  | AtReceive =>
      match receive q with
      | None => None
      | Some (job, q) =>
          Some (AtSetFlag job, holder, q,
                EvReceive w :: (if queuesEmpty q then [EvDrained] else []))
      end
  | AtSetFlag job => Some (AtSynchronize job, holder, withShouldUpdate true q, [])
  | AtSynchronize job => Some (AtLock, holder, synchronize job q, [])
  | AtLock =>
      match holder with
      | None => Some (AtCheckFlag, Some w, q, [])
      | Some _ => None
      end
  | AtCheckFlag =>
      if shouldUpdateLocalCollections q
      then Some (AtCheckAnimeQueue, holder, q, [])
      else Some (AtUnlock, holder, q, [EvCheck w false])
  | AtCheckAnimeQueue =>
      if (length (animeJobQueue q) =? 0)%nat
      then Some (AtCheckMangaQueue, holder, q, [])
      else Some (AtUnlock, holder, q, [EvCheck w false])
  | AtCheckMangaQueue =>
      if (length (mangaJobQueue q) =? 0)%nat
      then Some (AtBuild, holder, q, [EvCheck w true])
      else Some (AtUnlock, holder, q, [EvCheck w false])
  | AtBuild => Some (AtClearFlag, holder, runBuilder q, [EvPass w])
  | AtClearFlag => Some (AtSend, holder, withShouldUpdate false q, [])
  | AtSend =>
      match sendDone q with
      | Returned q => Some (AtUnlock, holder, q, [EvSignal w])
      | BlockedOnSend _ => None
      end
  | AtUnlock => Some (AtReceive, None, q, [])
  end.

Definition step (mv : Move) (m : Machine) : option (Machine * list Event) :=
  match mv with
  | SendAnimeJob job =>
      if (length (animeJobQueue (shared m)) <? jobQueueCapacity)%nat
      then Some ({| shared := withAnimeJobQueue (animeJobQueue (shared m) ++ [job]) (shared m);
                    mu := mu m; animePC := animePC m; mangaPC := mangaPC m |}, [])
      else None
  | SendMangaJob job =>
      if (length (mangaJobQueue (shared m)) <? jobQueueCapacity)%nat
      then Some ({| shared := withMangaJobQueue (mangaJobQueue (shared m) ++ [job]) (shared m);
                    mu := mu m; animePC := animePC m; mangaPC := mangaPC m |}, [])
      else None
  | ReceiveDone =>
      match doneUpdatingLocalCollections (shared m) with
      | O => None
      | S n => Some ({| shared := withDone n (shared m);
                        mu := mu m; animePC := animePC m; mangaPC := mangaPC m |}, [])
      end
  | Step AnimeWorker =>
      match workerStep AnimeWorker receiveAnimeJob (fun job => synchronizeAnime (AnimeDiff job))
                       (animePC m) (mu m) (shared m) with
      | None => None
      | Some (pc, holder, q, evs) =>
          Some ({| shared := q; mu := holder; animePC := pc; mangaPC := mangaPC m |}, evs)
      end
  | Step MangaWorker =>
      match workerStep MangaWorker receiveMangaJob (fun job => synchronizeManga (MangaDiff job))
                       (mangaPC m) (mu m) (shared m) with
      | None => None
      | Some (pc, holder, q, evs) =>
          Some ({| shared := q; mu := holder; animePC := animePC m; mangaPC := pc |}, evs)
      end
  end.

(** A run under a schedule; [None] when the schedule picks a move that is
    not enabled. *)
Fixpoint run (schedule : list Move) (m : Machine) : option (Machine * list Event) :=
  match schedule with
  | [] => Some (m, [])
  | mv :: rest =>
      match step mv m with
      | None => None
      | Some (m, evs) =>
          match run rest m with
          | None => None
          | Some (m, evs') => Some (m, evs ++ evs')
          end
      end
  end.

(** The two goroutines [NewQueue] starts, over the Syncer [q]. *)
Definition spawn (q : Syncer) : Machine :=
  {| shared := q; mu := None; animePC := AtReceive; mangaPC := AtReceive |}.

(** [NewQueue]. *)
Definition NewQueue (m : ManagerImpl) : Machine :=
  spawn {| animeJobQueue := [];
           mangaJobQueue := [];
           failedAnimeQueue := ∅;
           failedMangaQueue := ∅;
           trackedAnimeMap := ∅;
           trackedMangaMap := ∅;
           manager := m;
           shouldUpdateLocalCollections := false;
           doneUpdatingLocalCollections := 0 |}.

(** Both workers wait for a job and there is none. *)
Definition quiescent (m : Machine) : Prop :=
  animePC m = AtReceive ∧ mangaPC m = AtReceive ∧
  animeJobQueue (shared m) = [] ∧ mangaJobQueue (shared m) = [].

Definition count (e : Event) (trace : list Event) : nat :=
  length (filter (fun e' => e' = e) trace).

Definition drains (trace : list Event) : nat := count EvDrained trace.

Definition passes (trace : list Event) : nat :=
  count (EvPass AnimeWorker) trace + count (EvPass MangaWorker) trace.

(** *** Vocabulary of the properties *)

Definition listsOf (c : Collection) : list Lists := GetLists (ListCollection c).

(** What a local list keeps of the remote list it mirrors. *)
Definition skeleton (l : Lists) : option MediaListStatus * option string * option bool :=
  (Status l, Name l, IsCustomList l).

Definition hasStatus (l : Lists) : Prop := Status l ≠ None.

Global Instance hasStatus_dec l : Decision (hasStatus l).
Proof. unfold hasStatus. apply _. Defined.

(** The lists of [c] are the lists of [_c] that have a status, in the order
    of [_c], with the same status, name and custom-list flag. *)
Definition mirrorsLists (_c c : Collection) : Prop :=
  Forall hasStatus (listsOf c) ∧
  map skeleton (listsOf c) = map skeleton (filter hasStatus (listsOf _c)).

(** The index of the first list of [lists] whose status is [st]: the list
    at which the Builder's loop over the local lists stops. *)
Fixpoint firstWithStatus (st : MediaListStatus) (lists : list Lists) : option nat :=
  match lists with
  | [] => None
  | l :: rest =>
      if decide (Status l = Some st) then Some 0%nat
      else S <$> firstWithStatus st rest
  end.

(** The local entry made of a remote entry: none unless the media is
    tracked and has a snapshot. *)
Definition localEntryOf (DeepCopy : BaseMedia -> BaseMedia)
    (tracked : gmap Z TrackedMedia) (snapshotMap : gmap Z SnapshotAssets)
    (_entry : ListEntry) : option ListEntry :=
  match tracked !! ID (Media _entry) with
  | None => None
  | Some _ =>
      match snapshotMap !! ID (Media _entry) with
      | None => None
      | Some snapshot => Some (newEntry DeepCopy snapshot _entry)
      end
  end.

(** The local entries that the remote list [_list] contributes to the
    local list of index [i] among [lists]. *)
Definition entriesPlacedIn (DeepCopy : BaseMedia -> BaseMedia)
    (tracked : gmap Z TrackedMedia) (snapshotMap : gmap Z SnapshotAssets)
    (lists : list Lists) (i : nat) (_list : Lists) : list ListEntry :=
  match Status _list with
  | None => []
  | Some st =>
      if decide (firstWithStatus st lists = Some i)
      then omap (localEntryOf DeepCopy tracked snapshotMap) (Entries _list)
      else []
  end.

(** The four image fields of a rewritten cover. *)
Definition coverOf (url : option string) : BaseMedia_CoverImage :=
  {| ExtraLarge := url; Large := url; Medium := url; Color := url |}.

(** The entries of the lists of [c] are those the Builder places, given the
    remote collection [_c], the tracked map and the snapshots it read:
    the list of index [i] holds, in remote order, the local entries of the
    remote lists whose status is first met at index [i]; and each entry
    comes from a tracked remote entry with a snapshot, sits in the first
    list of its source list's status, and carries the asset URLs of that
    snapshot. *)
Definition wellPlaced (DeepCopy : BaseMedia -> BaseMedia)
    (tracked : gmap Z TrackedMedia) (snapshots : list SnapshotAssets)
    (_c c : Collection) : Prop :=
  ∀ i l, listsOf c !! i = Some l →
    Entries l
    = concat (map (entriesPlacedIn DeepCopy tracked (snapshotMapOf snapshots) (listsOf c) i)
                  (listsOf _c))
    ∧ ∀ e, e ∈ Entries l →
        ∃ _list st _entry snapshot,
          _list ∈ listsOf _c ∧ Status _list = Some st ∧ _entry ∈ Entries _list ∧
          is_Some (tracked !! ID (Media _entry)) ∧
          snapshot ∈ snapshots ∧ MediaId snapshot = ID (Media _entry) ∧
          firstWithStatus st (listsOf c) = Some i ∧
          Status l = Some st ∧
          (∀ j l', (j < i)%nat → listsOf c !! j = Some l' → Status l' ≠ Some st) ∧
          e = newEntry DeepCopy snapshot _entry ∧
          BannerImage (Media e)
          = FormatAssetUrl (MediaId snapshot) (BannerImagePath snapshot) ∧
          CoverImage (Media e)
          = Some (coverOf (FormatAssetUrl (MediaId snapshot) (CoverImagePath snapshot))).

(** The collections a Builder pass builds from the state it starts in. *)
Definition builtAnimeCollection (q : Syncer) (_c : AnimeCollection) : AnimeCollection :=
  buildLocalCollection BaseAnimeDeepCopy (trackedAnimeMap q)
    (map animeAssets (fst (GetAnimeSnapshots (localDb (manager q))))) _c.

Definition builtMangaCollection (q : Syncer) (_c : MangaCollection) : MangaCollection :=
  buildLocalCollection BaseMangaDeepCopy (trackedMangaMap q)
    (map mangaAssets (fst (GetMangaSnapshots (localDb (manager q))))) _c.

(** The pass reaches the save of the manga collection: both remote
    collections are present and the save of the anime collection succeeds. *)
Definition animeCollectionSaved (q : Syncer) : Prop :=
  is_Some (animeCollection (manager q)) ∧
  is_Some (mangaCollection (manager q)) ∧
  fails OpSaveAnimeCollection (localDb (manager q)) = false.

(** The ways [synchronizeAnime] fails on the entry of a job whose media has
    local files: the metadata fetch fails; the image download of a missing
    snapshot fails; the episode image download of an outdated snapshot
    fails; the save of the snapshot fails. *)
Inductive AnimeFailure (diff : AnimeDiffResult) (entry : AnimeListEntry) (q : Syncer) : Prop :=
  | AnimeMetadataFetchFails err :
      AnimeDiffType diff ≠ DiffTypeUpToDate →
      GetAnimeMetadata (ID (Media entry)) = inr err →
      AnimeFailure diff entry q
  | AnimeImageDownloadFails animeMetadata :
      AnimeDiffType diff = DiffTypeMissing →
      GetAnimeMetadata (ID (Media entry)) = inl animeMetadata →
      snd (snd (DownloadAnimeImages (localAssets (manager q)) entry animeMetadata)) = false →
      AnimeFailure diff entry q
  | AnimeEpisodeImageDownloadFails animeMetadata old :
      AnimeDiffType diff = DiffTypeMetadata →
      AnimeSnapshotOf diff = Some old →
      GetAnimeMetadata (ID (Media entry)) = inl animeMetadata →
      episodeImageUrlsToDownload animeMetadata (EpisodeImagePaths old) ≠ ∅ →
      snd (snd (DownloadAnimeEpisodeImages (localAssets (manager q)) (ID (Media entry))
                  (episodeImageUrlsToDownload animeMetadata (EpisodeImagePaths old)))) = false →
      AnimeFailure diff entry q
  | MissingAnimeSaveFails animeMetadata :
      AnimeDiffType diff = DiffTypeMissing →
      GetAnimeMetadata (ID (Media entry)) = inl animeMetadata →
      snd (snd (DownloadAnimeImages (localAssets (manager q)) entry animeMetadata)) = true →
      fails OpSaveAnimeSnapshot (localDb (manager q)) = true →
      AnimeFailure diff entry q
  | OutdatedAnimeSaveFails animeMetadata old :
      AnimeDiffType diff = DiffTypeMetadata →
      AnimeSnapshotOf diff = Some old →
      GetAnimeMetadata (ID (Media entry)) = inl animeMetadata →
      (episodeImageUrlsToDownload animeMetadata (EpisodeImagePaths old) = ∅ ∨
       snd (snd (DownloadAnimeEpisodeImages (localAssets (manager q)) (ID (Media entry))
                   (episodeImageUrlsToDownload animeMetadata (EpisodeImagePaths old)))) = true) →
      fails OpSaveAnimeSnapshot (localDb (manager q)) = true →
      AnimeFailure diff entry q.

(** The guards [synchronizeManga] passes before it looks at the chapter
    containers: the remote manga collection is present, it lists the media,
    and the listed entry has a status. *)
Definition mangaListed (entry : MangaListEntry) (q : Syncer) : Prop :=
  ∃ collection listEntry,
    mangaCollection (manager q) = Some collection ∧
    GetListEntryFromMangaId collection (ID (Media entry)) = Some listEntry ∧
    EntryStatus listEntry ≠ None.

(** The ways [synchronizeManga] fails on a listed manga that has chapter
    containers: the image download of a missing snapshot fails; the save of
    the snapshot fails. *)
Inductive MangaFailure (diff : MangaDiffResult) (entry : MangaListEntry) (q : Syncer) : Prop :=
  | MangaImageDownloadFails :
      MangaDiffType diff = DiffTypeMissing →
      snd (snd (DownloadMangaImages (localAssets (manager q)) entry)) = false →
      MangaFailure diff entry q
  | MissingMangaSaveFails :
      MangaDiffType diff = DiffTypeMissing →
      snd (snd (DownloadMangaImages (localAssets (manager q)) entry)) = true →
      fails OpSaveMangaSnapshot (localDb (manager q)) = true →
      MangaFailure diff entry q
  | OutdatedMangaSaveFails old :
      MangaDiffType diff = DiffTypeMetadata →
      MangaSnapshotOf diff = Some old →
      fails OpSaveMangaSnapshot (localDb (manager q)) = true →
      MangaFailure diff entry q.

(** Where a worker stands, in numbers: the jobs it has received and not yet
    checked for, the successful checks whose pass is still to run, the
    passes whose signal is still to be sent; and whether it holds the mutex. *)
Definition pending {J : Type} (pc : PC J) : nat :=
  match pc with
  | AtSetFlag _ | AtSynchronize _ | AtLock
  | AtCheckFlag | AtCheckAnimeQueue | AtCheckMangaQueue => 1
  | _ => 0
  end.

Definition passDue {J : Type} (pc : PC J) : nat :=
  match pc with
  | AtBuild => 1
  | _ => 0
  end.

Definition signalDue {J : Type} (pc : PC J) : nat :=
  match pc with
  | AtClearFlag | AtSend => 1
  | _ => 0
  end.

Definition inCheck {J : Type} (pc : PC J) : bool :=
  match pc with
  | AtCheckFlag | AtCheckAnimeQueue | AtCheckMangaQueue
  | AtBuild | AtClearFlag | AtSend | AtUnlock => true
  | _ => false
  end.

Definition idle (w : Worker) (m : Machine) : Prop :=
  match w with
  | AnimeWorker => animePC m = AtReceive
  | MangaWorker => mangaPC m = AtReceive
  end.

Definition building (w : Worker) (m : Machine) : Prop :=
  match w with
  | AnimeWorker => animePC m = AtBuild
  | MangaWorker => mangaPC m = AtBuild
  end.

(** The bookkeeping that every run keeps. *)
Definition accounted (m : Machine) (trace : list Event) : Prop :=
  count (EvReceive AnimeWorker) trace
  = (count (EvCheck AnimeWorker true) trace + count (EvCheck AnimeWorker false) trace
     + pending (animePC m))%nat ∧
  count (EvCheck AnimeWorker true) trace
  = (count (EvPass AnimeWorker) trace + passDue (animePC m))%nat ∧
  count (EvPass AnimeWorker) trace
  = (count (EvSignal AnimeWorker) trace + signalDue (animePC m))%nat ∧
  count (EvReceive MangaWorker) trace
  = (count (EvCheck MangaWorker true) trace + count (EvCheck MangaWorker false) trace
     + pending (mangaPC m))%nat ∧
  count (EvCheck MangaWorker true) trace
  = (count (EvPass MangaWorker) trace + passDue (mangaPC m))%nat ∧
  count (EvPass MangaWorker) trace
  = (count (EvSignal MangaWorker) trace + signalDue (mangaPC m))%nat ∧
  mu m = (if inCheck (animePC m) then Some AnimeWorker
          else if inCheck (mangaPC m) then Some MangaWorker else None) ∧
  (inCheck (animePC m) && inCheck (mangaPC m) = false).

(** ** Properties *)

(** *** The lists of a built collection *)

Lemma ToNewPointer_id {A : Type} (p : option A) : ToNewPointer p = p.
Proof. by destruct p. Qed.

Lemma skeleton_newList l : skeleton (newList l) = skeleton l.
Proof. unfold skeleton, newList; simpl. by rewrite !ToNewPointer_id. Qed.

Lemma createLists_from (_lists acc : list Lists) :
  fold_left
    (fun lists _list =>
       match GetStatus _list with
       | None => lists
       | Some _ => lists ++ [newList _list]
       end) _lists acc
  = acc ++ map newList (filter hasStatus _lists).
Proof.
  revert acc. induction _lists as [|l _lists IH]; intros acc; simpl.
  - by rewrite app_nil_r.
  - rewrite IH. unfold GetStatus, hasStatus.
    destruct (Status l) as [st|] eqn:Hst.
    + rewrite filter_cons_True by (by rewrite Hst). simpl. by rewrite <- app_assoc.
    + rewrite filter_cons_False by (rewrite Hst; auto). done.
Qed.

Lemma createLists_eq (_lists : list Lists) :
  createLists _lists = map newList (filter hasStatus _lists).
Proof. unfold createLists. by rewrite createLists_from. Qed.

Section KindProperties.

Variable DeepCopy : BaseMedia -> BaseMedia.

Lemma addToRightList_skeleton st snapshot _entry lists :
  map skeleton (addToRightList DeepCopy st snapshot _entry lists) = map skeleton lists.
Proof.
  induction lists as [|l lists IH]; simpl; [done|].
  unfold GetStatus. destruct (Status l) as [s|] eqn:Hs; simpl.
  - case_bool_decide; simpl; [by rewrite IH|done].
  - by rewrite IH.
Qed.

Lemma addEntry_skeleton tracked snapshotMap st lists _entry :
  map skeleton (addEntry DeepCopy tracked snapshotMap st lists _entry) = map skeleton lists.
Proof.
  unfold addEntry. destruct (tracked !! _) as [?|]; [|done].
  destruct (snapshotMap !! _) as [?|]; [|done].
  apply addToRightList_skeleton.
Qed.

Lemma addEntry_fold_skeleton tracked snapshotMap st _entries lists :
  map skeleton (fold_left (addEntry DeepCopy tracked snapshotMap st) _entries lists)
  = map skeleton lists.
Proof.
  revert lists. induction _entries as [|e _entries IH]; intros lists; simpl; [done|].
  by rewrite IH, addEntry_skeleton.
Qed.

Lemma addEntries_skeleton tracked snapshotMap _lists lists :
  map skeleton (addEntries DeepCopy tracked snapshotMap _lists lists) = map skeleton lists.
Proof.
  unfold addEntries. revert lists.
  induction _lists as [|l _lists IH]; intros lists; simpl; [done|].
  rewrite IH. destruct (GetStatus l); [|done]. apply addEntry_fold_skeleton.
Qed.

Lemma buildLocalCollection_skeleton tracked snapshots _c :
  map skeleton (listsOf (buildLocalCollection DeepCopy tracked snapshots _c))
  = map skeleton (filter hasStatus (listsOf _c)).
Proof.
  unfold buildLocalCollection, listsOf; simpl.
  destruct (0 <? length snapshots)%nat.
  - rewrite addEntries_skeleton, createLists_eq.
    rewrite map_map. apply map_ext. intros l. apply skeleton_newList.
  - rewrite createLists_eq, map_map. apply map_ext. intros l. apply skeleton_newList.
Qed.

Lemma hasStatus_skeleton (ls ls' : list Lists) :
  map skeleton ls = map skeleton ls' → Forall hasStatus ls' → Forall hasStatus ls.
Proof.
  revert ls'. induction ls as [|l ls IH]; intros [|l' ls'] Heq Hall;
    simpl in *; try discriminate; [constructor|].
  inversion Heq as [[Hst Hname Hflag Hrest]]. inversion Hall; subst.
  constructor; [|by eapply IH].
  unfold hasStatus in *. congruence.
Qed.

Lemma buildLocalCollection_mirrors tracked snapshots _c :
  mirrorsLists _c (buildLocalCollection DeepCopy tracked snapshots _c).
Proof.
  split; [|apply buildLocalCollection_skeleton].
  eapply hasStatus_skeleton; [apply buildLocalCollection_skeleton|].
  apply Forall_forall. intros l Hl.
  by apply list_elem_of_filter in Hl as [? _].
Qed.

(** *** The entries of a built collection *)

Lemma firstWithStatus_skeleton st (ls ls' : list Lists) :
  map skeleton ls = map skeleton ls' →
  firstWithStatus st ls = firstWithStatus st ls'.
Proof.
  revert ls'. induction ls as [|l ls IH]; intros [|l' ls'] Heq;
    simpl in *; try discriminate; [done|].
  inversion Heq as [[Hst Hname Hflag Hrest]]. rewrite Hst.
  by rewrite (IH ls' Hrest).
Qed.

Lemma addToRightList_entries st snapshot _entry lists i :
  Entries <$> (addToRightList DeepCopy st snapshot _entry lists !! i)
  = (fun l => Entries l ++
              (if decide (firstWithStatus st lists = Some i)
               then [newEntry DeepCopy snapshot _entry] else []))
    <$> (lists !! i).
Proof.
  revert i. induction lists as [|l lists IH]; intros i; simpl; [done|].
  unfold GetStatus. destruct (decide (Status l = Some st)) as [Hst|Hst].
  - rewrite Hst. rewrite bool_decide_eq_false_2 by (intros H; by apply H).
    destruct i as [|i]; simpl.
    + done.
    + destruct (lists !! i); simpl; [|done]. by rewrite app_nil_r.
  - assert (Hstep : (l :: addToRightList DeepCopy st snapshot _entry lists) !! i
                    = match i with
                      | O => Some l
                      | S j => addToRightList DeepCopy st snapshot _entry lists !! j
                      end) by (by destruct i).
    assert (Hgoal : Entries <$> ((l :: addToRightList DeepCopy st snapshot _entry lists) !! i)
                    = (fun l0 => Entries l0 ++
                         (if decide (S <$> firstWithStatus st lists = Some i)
                          then [newEntry DeepCopy snapshot _entry] else []))
                      <$> ((l :: lists) !! i)).
    { rewrite Hstep. destruct i as [|i]; simpl.
      - destruct (firstWithStatus st lists); simpl;
          repeat case_decide; simplify_eq; by rewrite app_nil_r.
      - rewrite IH. destruct (lists !! i); simpl; [|done].
        f_equal. f_equal.
        destruct (firstWithStatus st lists) as [j|]; simpl;
          repeat case_decide; simplify_eq; done. }
    destruct (Status l) as [s|] eqn:Hs.
    + rewrite bool_decide_eq_true_2 by congruence. exact Hgoal.
    + exact Hgoal.
Qed.

Lemma addEntry_entries tracked snapshotMap st lists _entry i :
  Entries <$> (addEntry DeepCopy tracked snapshotMap st lists _entry !! i)
  = (fun l => Entries l ++
              (if decide (firstWithStatus st lists = Some i)
               then option_list (localEntryOf DeepCopy tracked snapshotMap _entry)
               else []))
    <$> (lists !! i).
Proof.
  unfold addEntry, localEntryOf, GetID, GetMedia.
  destruct (tracked !! ID (Media _entry)) as [t|]; simpl.
  - destruct (snapshotMap !! ID (Media _entry)) as [snapshot|]; simpl.
    + apply addToRightList_entries.
    + destruct (lists !! i); simpl; [|done].
      case_decide; by rewrite app_nil_r.
  - destruct (lists !! i); simpl; [|done].
    case_decide; by rewrite app_nil_r.
Qed.

Lemma addEntry_fold_entries tracked snapshotMap st _entries lists i :
  Entries <$> (fold_left (addEntry DeepCopy tracked snapshotMap st) _entries lists !! i)
  = (fun l => Entries l ++
              (if decide (firstWithStatus st lists = Some i)
               then omap (localEntryOf DeepCopy tracked snapshotMap) _entries
               else []))
    <$> (lists !! i).
Proof.
  revert lists. induction _entries as [|e _entries IH]; intros lists; simpl.
  - destruct (lists !! i); simpl; [|done]. case_decide; by rewrite app_nil_r.
  - rewrite IH.
    rewrite (firstWithStatus_skeleton st _ lists) by apply addEntry_skeleton.
    pose proof (addEntry_entries tracked snapshotMap st lists e i) as He.
    destruct (addEntry DeepCopy tracked snapshotMap st lists e !! i) as [l'|];
      destruct (lists !! i) as [l|]; simpl in *; try discriminate; [|done].
    inversion He as [He']. rewrite He'. f_equal.
    case_decide; [|by rewrite !app_nil_r].
    rewrite <- app_assoc. f_equal.
    by destruct (localEntryOf DeepCopy tracked snapshotMap e).
Qed.

Lemma addEntries_entries tracked snapshotMap _lists lists i :
  Entries <$> (addEntries DeepCopy tracked snapshotMap _lists lists !! i)
  = (fun l => Entries l ++
              concat (map (entriesPlacedIn DeepCopy tracked snapshotMap lists i) _lists))
    <$> (lists !! i).
Proof.
  unfold addEntries. revert lists.
  induction _lists as [|_l _lists IH]; intros lists; simpl.
  - destruct (lists !! i); simpl; [|done]. by rewrite app_nil_r.
  - rewrite IH. unfold entriesPlacedIn at 2, GetStatus, GetEntries.
    destruct (Status _l) as [st|] eqn:Hst; simpl; [|done].
    assert (Hsk : map skeleton
                    (fold_left (addEntry DeepCopy tracked snapshotMap st) (Entries _l) lists)
                  = map skeleton lists) by apply addEntry_fold_skeleton.
    assert (Hplaced : ∀ _l',
              entriesPlacedIn DeepCopy tracked snapshotMap
                (fold_left (addEntry DeepCopy tracked snapshotMap st) (Entries _l) lists) i _l'
              = entriesPlacedIn DeepCopy tracked snapshotMap lists i _l').
    { intros _l'. unfold entriesPlacedIn. destruct (Status _l'); [|done].
      by rewrite (firstWithStatus_skeleton _ _ lists Hsk). }
    rewrite (map_ext _ _ Hplaced).
    pose proof (addEntry_fold_entries tracked snapshotMap st (Entries _l) lists i) as He.
    destruct (fold_left (addEntry DeepCopy tracked snapshotMap st) (Entries _l) lists !! i)
      as [l'|]; destruct (lists !! i) as [l|]; simpl in *; try discriminate; [|done].
    inversion He as [He']. rewrite He'. by rewrite <- app_assoc.
Qed.

Lemma createLists_no_entries (_lists : list Lists) i l :
  createLists _lists !! i = Some l → Entries l = [].
Proof.
  rewrite createLists_eq. intros Hl.
  apply list_lookup_fmap_Some in Hl as (_l & -> & _). done.
Qed.

Lemma snapshotMapOf_from (snapshots : list SnapshotAssets) (m : gmap Z SnapshotAssets) k s :
  fold_left (fun m snapshot => <[MediaId snapshot := snapshot]> m) snapshots m !! k = Some s →
  (s ∈ snapshots ∧ MediaId s = k) ∨ m !! k = Some s.
Proof.
  revert m. induction snapshots as [|x snapshots IH]; intros m Hk; simpl in *; [by right|].
  destruct (IH _ Hk) as [[Hin Hid]|Hm].
  - left. split; [apply elem_of_cons; by right|done].
  - destruct (decide (MediaId x = k)) as [Heq|Hne].
    + rewrite <- Heq, lookup_insert_eq in Hm. inversion Hm; subst.
      left. split; [apply elem_of_cons; by left|done].
    + rewrite lookup_insert_ne in Hm by done. by right.
Qed.

Lemma snapshotMapOf_lookup (snapshots : list SnapshotAssets) k s :
  snapshotMapOf snapshots !! k = Some s → s ∈ snapshots ∧ MediaId s = k.
Proof.
  intros Hk. apply snapshotMapOf_from in Hk as [H|H]; [done|].
  by rewrite lookup_empty in H.
Qed.

Lemma snapshotMapOf_nil_lookup k : snapshotMapOf [] !! k = None.
Proof. apply lookup_empty. Qed.

Lemma firstWithStatus_Some st (lists : list Lists) i :
  firstWithStatus st lists = Some i →
  ∃ l, lists !! i = Some l ∧ Status l = Some st ∧
       ∀ j l', (j < i)%nat → lists !! j = Some l' → Status l' ≠ Some st.
Proof.
  revert i. induction lists as [|l0 lists IH]; intros i Hi; simpl in *; [discriminate|].
  destruct (decide (Status l0 = Some st)) as [Hst|Hst].
  - inversion Hi; subst. exists l0. repeat split; [done|]. intros j l' Hj. lia.
  - destruct (firstWithStatus st lists) as [k|]; simpl in Hi; [|discriminate].
    inversion Hi; subst. destruct (IH k eq_refl) as (l & Hl & Hs & Hfirst).
    exists l. repeat split; [done..|].
    intros [|j] l' Hj Hl'; simpl in Hl'.
    + by inversion Hl'; subst.
    + apply (Hfirst j l'); [lia|done].
Qed.

Lemma elem_of_concat_map {A B : Type} (f : A → list B) (xs : list A) (y : B) :
  y ∈ concat (map f xs) → ∃ x, x ∈ xs ∧ y ∈ f x.
Proof.
  intros Hy. apply list_elem_of_In, in_concat in Hy as (ys & Hys & Hy).
  apply in_map_iff in Hys as (x & <- & Hx).
  exists x. split; by apply list_elem_of_In.
Qed.

Lemma buildLocalCollection_wellPlaced tracked snapshots _c :
  wellPlaced DeepCopy tracked snapshots _c
    (buildLocalCollection DeepCopy tracked snapshots _c).
Proof.
  intros i l Hl.
  set (c := buildLocalCollection DeepCopy tracked snapshots _c) in *.
  assert (Hentries :
    Entries l = concat (map (entriesPlacedIn DeepCopy tracked (snapshotMapOf snapshots)
                               (listsOf c) i) (listsOf _c))).
  { subst c. unfold buildLocalCollection, listsOf in *; simpl in *.
    destruct (0 <? length snapshots)%nat eqn:Hlen.
    - pose proof (addEntries_entries tracked (snapshotMapOf snapshots)
                    (GetLists (ListCollection _c))
                    (createLists (GetLists (ListCollection _c))) i) as He.
      rewrite Hl in He. simpl in He.
      destruct (createLists (GetLists (ListCollection _c)) !! i) as [l0|] eqn:Hl0;
        simpl in He; [|discriminate].
      inversion He as [He']. rewrite He'.
      rewrite (createLists_no_entries _ _ _ Hl0). simpl.
      f_equal. apply map_ext. intros _l. unfold entriesPlacedIn.
      destruct (Status _l); [|done].
      by rewrite (firstWithStatus_skeleton _ _ _ (addEntries_skeleton _ _ _ _)).
    - rewrite (createLists_no_entries _ _ _ Hl).
      apply Nat.ltb_ge in Hlen. destruct snapshots; [|simpl in Hlen; lia].
      symmetry. apply concat_nil_Forall, Forall_forall.
      intros es Hes. apply list_elem_of_In, in_map_iff in Hes as (_l & <- & _).
      unfold entriesPlacedIn. destruct (Status _l); [|done].
      case_decide; [|done].
      induction (Entries _l) as [|e es IH]; simpl; [done|].
      unfold localEntryOf at 1. rewrite snapshotMapOf_nil_lookup.
      by destruct (tracked !! ID (Media e)). }
  split; [exact Hentries|].
  intros e He. rewrite Hentries in He.
  apply elem_of_concat_map in He as (_list & H_list & He).
  unfold entriesPlacedIn in He.
  destruct (Status _list) as [st|] eqn:Hst; [|by apply not_elem_of_nil in He].
  case_decide as Hfirst; [|by apply not_elem_of_nil in He].
  apply list_elem_of_omap in He as (_entry & H_entry & Hlocal).
  unfold localEntryOf in Hlocal.
  destruct (tracked !! ID (Media _entry)) as [t|] eqn:Ht; [|discriminate].
  destruct (snapshotMapOf snapshots !! ID (Media _entry)) as [snapshot|] eqn:Hs;
    [|discriminate].
  inversion Hlocal; subst e.
  apply snapshotMapOf_lookup in Hs as [Hin Hid].
  destruct (firstWithStatus_Some _ _ _ Hfirst) as (l' & Hl' & Hstatus & Hbefore).
  rewrite Hl in Hl'. inversion Hl'; subst l'.
  exists _list, st, _entry, snapshot.
  repeat split; try done.
Qed.

End KindProperties.

(** *** synchronizeCollections as a whole *)

Lemma synchronizeCollections_success q q' :
  synchronizeCollections q = (None, q') →
  ∃ _anime _manga,
    animeCollection (manager q) = Some _anime ∧
    mangaCollection (manager q) = Some _manga ∧
    localAnimeCollection (manager q') = Some (builtAnimeCollection q _anime) ∧
    localMangaCollection (manager q') = Some (builtMangaCollection q _manga) ∧
    localAnimeCollectionRow (localDb (manager q')) = Some (builtAnimeCollection q _anime) ∧
    localMangaCollectionRow (localDb (manager q')) = Some (builtMangaCollection q _manga).
Proof.
  unfold synchronizeCollections, builtAnimeCollection, builtMangaCollection. simpl.
  destruct (animeCollection (manager q)) as [_anime|]; [|discriminate].
  destruct (mangaCollection (manager q)) as [_manga|]; [|discriminate].
  unfold SaveAnimeCollection, SaveMangaCollection, fails at 1 2. simpl.
  destruct (bool_decide (OpSaveAnimeCollection ∈ failingOps (localDb (manager q))));
    simpl; [discriminate|].
  destruct (bool_decide (OpSaveMangaCollection ∈ failingOps (localDb (manager q))));
    simpl; [discriminate|].
  intros Hq. inversion Hq; subst q'. simpl.
  exists _anime, _manga. repeat split.
Qed.

(** C3.  The local collections that a Builder pass publishes and stores
    contain no list without a status, and their lists are the remote lists
    that have a status, in remote order, each with the remote list's
    status, name and custom-list flag. *)
Theorem local_lists_mirror_remote_lists q q' :
  synchronizeCollections q = (None, q') →
  ∃ _anime _manga anime manga,
    animeCollection (manager q) = Some _anime ∧
    mangaCollection (manager q) = Some _manga ∧
    localAnimeCollection (manager q') = Some anime ∧
    localMangaCollection (manager q') = Some manga ∧
    localAnimeCollectionRow (localDb (manager q')) = Some anime ∧
    localMangaCollectionRow (localDb (manager q')) = Some manga ∧
    mirrorsLists _anime anime ∧
    mirrorsLists _manga manga.
Proof.
  intros Hq.
  destruct (synchronizeCollections_success q q' Hq)
    as (_anime & _manga & Ha & Hm & Hla & Hlm & Hra & Hrm).
  exists _anime, _manga, (builtAnimeCollection q _anime), (builtMangaCollection q _manga).
  repeat split; try done; apply buildLocalCollection_mirrors.
Qed.

Lemma read_anime_snapshots_persisted db s :
  s ∈ fst (GetAnimeSnapshots db) → s ∈ animeSnapshotRows db.
Proof.
  unfold GetAnimeSnapshots. destruct (fails _ _); simpl; [|done].
  intros H. by apply not_elem_of_nil in H.
Qed.

Lemma read_manga_snapshots_persisted db s :
  s ∈ fst (GetMangaSnapshots db) → s ∈ mangaSnapshotRows db.
Proof.
  unfold GetMangaSnapshots. destruct (fails _ _); simpl; [|done].
  intros H. by apply not_elem_of_nil in H.
Qed.

(** C4.  In the local collections that a Builder pass publishes, every
    entry comes from a remote entry whose media ID is in the tracked map and
    has a snapshot in the store; it sits in the first local list whose
    status is the status of its source list, and in no other; and its
    media's banner image and the fields of its cover image are the asset
    URLs of the snapshot's banner and cover paths. *)
Theorem local_entries_are_tracked_snapshots q q' :
  synchronizeCollections q = (None, q') →
  ∃ _anime _manga anime manga,
    animeCollection (manager q) = Some _anime ∧
    mangaCollection (manager q) = Some _manga ∧
    localAnimeCollection (manager q') = Some anime ∧
    localMangaCollection (manager q') = Some manga ∧
    wellPlaced BaseAnimeDeepCopy (trackedAnimeMap q)
      (map animeAssets (fst (GetAnimeSnapshots (localDb (manager q))))) _anime anime ∧
    wellPlaced BaseMangaDeepCopy (trackedMangaMap q)
      (map mangaAssets (fst (GetMangaSnapshots (localDb (manager q))))) _manga manga ∧
    (∀ s, s ∈ fst (GetAnimeSnapshots (localDb (manager q))) →
          s ∈ animeSnapshotRows (localDb (manager q))) ∧
    (∀ s, s ∈ fst (GetMangaSnapshots (localDb (manager q))) →
          s ∈ mangaSnapshotRows (localDb (manager q))).
Proof.
  intros Hq.
  destruct (synchronizeCollections_success q q' Hq)
    as (_anime & _manga & Ha & Hm & Hla & Hlm & _ & _).
  exists _anime, _manga, (builtAnimeCollection q _anime), (builtMangaCollection q _manga).
  split_and!; try done.
  - apply buildLocalCollection_wellPlaced.
  - apply buildLocalCollection_wellPlaced.
  - apply read_anime_snapshots_persisted.
  - apply read_manga_snapshots_persisted.
Qed.

(** C8.  The Builder is idempotent: from any state, a second pass right
    after a first one ends as the first did and leaves the published and
    the stored local collections as the first pass left them (equal values,
    hence equal serializations). *)
Theorem synchronizeCollections_idempotent q :
  let once := synchronizeCollections q in
  let twice := synchronizeCollections (snd once) in
  fst twice = fst once ∧
  localAnimeCollection (manager (snd twice)) = localAnimeCollection (manager (snd once)) ∧
  localMangaCollection (manager (snd twice)) = localMangaCollection (manager (snd once)) ∧
  localAnimeCollectionRow (localDb (manager (snd twice)))
  = localAnimeCollectionRow (localDb (manager (snd once))) ∧
  localMangaCollectionRow (localDb (manager (snd twice)))
  = localMangaCollectionRow (localDb (manager (snd once))).
Proof.
  unfold synchronizeCollections. simpl.
  destruct (animeCollection (manager q)) as [_anime|] eqn:Ha; simpl;
    [|rewrite Ha; simpl; done].
  destruct (mangaCollection (manager q)) as [_manga|] eqn:Hm; simpl;
    [|rewrite Ha, Hm; simpl; done].
  unfold SaveAnimeCollection, SaveMangaCollection, GetAnimeSnapshots, GetMangaSnapshots, fails.
  simpl.
  destruct (bool_decide (OpSaveAnimeCollection ∈ failingOps (localDb (manager q)))) eqn:Hfa;
    simpl.
  { rewrite Ha, Hm; simpl. rewrite Hfa; simpl. done. }
  destruct (bool_decide (OpSaveMangaCollection ∈ failingOps (localDb (manager q)))) eqn:Hfm;
    simpl.
  { rewrite Ha, Hm; simpl. rewrite Hfa; simpl. rewrite Hfm; simpl. done. }
  rewrite Ha, Hm; simpl. rewrite Hfa; simpl. rewrite Hfm; simpl. done.
Qed.

(** C1, amended.  When a Builder pass fails, the stored and the published
    local manga collection are as before the pass.  The stored and the
    published local anime collection are as before the pass when the pass
    stops before the manga save; when it is the manga save that fails, both
    hold the newly built anime collection. *)
Theorem failed_pass_keeps_manga_and_may_replace_anime q err q' :
  synchronizeCollections q = (Some err, q') →
  localMangaCollectionRow (localDb (manager q')) = localMangaCollectionRow (localDb (manager q)) ∧
  localMangaCollection (manager q') = localMangaCollection (manager q) ∧
  (¬ animeCollectionSaved q →
     localAnimeCollectionRow (localDb (manager q'))
     = localAnimeCollectionRow (localDb (manager q)) ∧
     localAnimeCollection (manager q') = localAnimeCollection (manager q)) ∧
  (animeCollectionSaved q →
     err = ioError OpSaveMangaCollection ∧
     ∃ _anime, animeCollection (manager q) = Some _anime ∧
       localAnimeCollectionRow (localDb (manager q')) = Some (builtAnimeCollection q _anime) ∧
       localAnimeCollection (manager q') = Some (builtAnimeCollection q _anime)).
Proof.
  unfold synchronizeCollections, animeCollectionSaved, builtAnimeCollection. simpl.
  destruct (animeCollection (manager q)) as [_anime|] eqn:Ha; simpl.
  2:{ intros Hq; inversion Hq; subst; simpl. split_and!; try done.
      intros ([? ?] & _); discriminate. }
  destruct (mangaCollection (manager q)) as [_manga|] eqn:Hm; simpl.
  2:{ intros Hq; inversion Hq; subst; simpl. split_and!; try done.
      intros (_ & [? ?] & _); discriminate. }
  unfold SaveAnimeCollection, SaveMangaCollection, fails. simpl.
  destruct (bool_decide (OpSaveAnimeCollection ∈ failingOps (localDb (manager q)))) eqn:Hfa;
    simpl.
  { intros Hq; inversion Hq; subst; simpl. split_and!; try done.
    intros (_ & _ & ?); discriminate. }
  destruct (bool_decide (OpSaveMangaCollection ∈ failingOps (localDb (manager q)))) eqn:Hfm;
    simpl; [|discriminate].
  intros Hq; inversion Hq; subst; simpl. split_and!; try done.
  - intros Hn. exfalso. apply Hn. split_and!; eauto.
  - intros _. split; [done|]. by exists _anime.
Qed.

(** *** The drain check *)

Lemma synchronizeCollections_frame q :
  let q' := snd (synchronizeCollections q) in
  animeJobQueue q' = animeJobQueue q ∧
  mangaJobQueue q' = mangaJobQueue q ∧
  shouldUpdateLocalCollections q' = shouldUpdateLocalCollections q ∧
  doneUpdatingLocalCollections q' = doneUpdatingLocalCollections q ∧
  failedAnimeQueue q' = failedAnimeQueue q ∧
  failedMangaQueue q' = failedMangaQueue q.
Proof.
  unfold synchronizeCollections. simpl.
  destruct (animeCollection (manager q)); [|done].
  destruct (mangaCollection (manager q)); [|done].
  destruct (SaveAnimeCollection _ _) as [[e|] db]; [done|]. simpl.
  destruct (SaveMangaCollection _ _) as [[e|] db']; done.
Qed.

(** C10.  When the Builder pass of a drain check returns an error, the check
    logs the error and goes on as after a successful pass: it clears the
    rebuild-pending flag and sends on [doneUpdatingLocalCollections] (the
    signal is buffered when the channel has room, else the send waits for the
    reader).  Another check made before a job sets the flag again runs no
    pass and changes nothing. *)
Theorem failed_pass_still_clears_flag_and_signals q err q1 :
  shouldUpdateLocalCollections q = true →
  animeJobQueue q = [] →
  mangaJobQueue q = [] →
  synchronizeCollections q = (Some err, q1) →
  let logged := qlog LevelError "sync: Failed to synchronize collections" (Some err) q1 in
  let after := stateOf (checkAndUpdateLocalCollections q) in
  checkAndUpdateLocalCollections q = sendDone (withShouldUpdate false logged) ∧
  shouldUpdateLocalCollections after = false ∧
  logger (manager after)
  = logger (manager q1)
    ++ [{| Level := LevelError;
           Message := "sync: Failed to synchronize collections";
           Err := Some err |}] ∧
  ((doneUpdatingLocalCollections q < doneCapacity)%nat →
     checkAndUpdateLocalCollections q = Returned after ∧
     doneUpdatingLocalCollections after = S (doneUpdatingLocalCollections q)) ∧
  ((doneCapacity ≤ doneUpdatingLocalCollections q)%nat →
     checkAndUpdateLocalCollections q = BlockedOnSend after ∧
     doneUpdatingLocalCollections after = doneUpdatingLocalCollections q) ∧
  checkAndUpdateLocalCollections after = Returned after.
Proof.
  intros Hflag Ha Hm Hpass logged after.
  pose proof (synchronizeCollections_frame q) as Hframe. rewrite Hpass in Hframe.
  simpl in Hframe. destruct Hframe as (_ & _ & _ & Hdone & _ & _).
  assert (Hcheck : checkAndUpdateLocalCollections q
                   = sendDone (withShouldUpdate false logged)).
  { unfold checkAndUpdateLocalCollections, runBuilder.
    by rewrite Hflag, Ha, Hm, Hpass. }
  subst after. rewrite Hcheck. unfold sendDone. simpl. rewrite Hdone.
  destruct (doneUpdatingLocalCollections q <? doneCapacity)%nat eqn:Hroom; simpl.
  - apply Nat.ltb_lt in Hroom. split_and!; try done. intros ?; lia.
  - apply Nat.ltb_ge in Hroom. split_and!; try done. intros ?; lia.
Qed.

(** *** synchronizeAnime and synchronizeManga *)

Lemma saveAnimeSnapshot_queues entry snapshot q :
  animeJobQueue (saveAnimeSnapshot entry snapshot q) = animeJobQueue q ∧
  mangaJobQueue (saveAnimeSnapshot entry snapshot q) = mangaJobQueue q.
Proof. unfold saveAnimeSnapshot. by destruct (SaveAnimeSnapshot _ _) as [[e|] db]. Qed.

Lemma saveMangaSnapshot_queues entry snapshot q :
  animeJobQueue (saveMangaSnapshot entry snapshot q) = animeJobQueue q ∧
  mangaJobQueue (saveMangaSnapshot entry snapshot q) = mangaJobQueue q.
Proof. unfold saveMangaSnapshot. by destruct (SaveMangaSnapshot _ _) as [[e|] db]. Qed.

Ltac through_save :=
  match goal with
  | |- context [saveAnimeSnapshot ?e ?s ?q0] =>
      destruct (saveAnimeSnapshot_queues e s q0) as [-> ->]
  | |- context [saveMangaSnapshot ?e ?s ?q0] =>
      destruct (saveMangaSnapshot_queues e s q0) as [-> ->]
  end; done.

Lemma synchronizeAnime_queues diff q :
  animeJobQueue (synchronizeAnime diff q) = animeJobQueue q ∧
  mangaJobQueue (synchronizeAnime diff q) = mangaJobQueue q.
Proof.
  unfold synchronizeAnime, synchronizeMissingAnime, synchronizeOutdatedAnime.
  destruct (AnimeEntry diff) as [entry|]; [|done]. simpl.
  destruct (foundLocalFiles _ _); simpl; [|done].
  destruct (bool_decide (AnimeDiffType diff = DiffTypeMissing)
            || bool_decide (AnimeDiffType diff = DiffTypeMetadata)); [|done].
  destruct (GetAnimeMetadata _) as [animeMetadata|err]; [|done].
  destruct (bool_decide (AnimeDiffType diff = DiffTypeMissing)).
  - destruct (DownloadAnimeImages _ _ _) as [assets [[[b c] eps] [|]]]; simpl; [|done].
    through_save.
  - destruct (AnimeSnapshotOf diff) as [old|]; [|done].
    destruct (bool_decide (AnimeDiffType diff = DiffTypeMetadata)); [|done].
    simpl. destruct (0 <? size _)%nat.
    + destruct (DownloadAnimeEpisodeImages _ _ _) as [assets [paths [|]]]; simpl; [|done].
      through_save.
    + through_save.
Qed.

Lemma synchronizeManga_queues diff q :
  animeJobQueue (synchronizeManga diff q) = animeJobQueue q ∧
  mangaJobQueue (synchronizeManga diff q) = mangaJobQueue q.
Proof.
  unfold synchronizeManga, synchronizeMissingManga, synchronizeOutdatedManga.
  destruct (MangaEntry diff) as [entry|]; [|done]. simpl.
  destruct (mangaCollection (manager q)) as [collection|]; [|done].
  destruct (GetListEntryFromMangaId _ _) as [listEntry|]; [|done].
  destruct (EntryStatus listEntry); [|done].
  destruct (length _ =? 0)%nat; [done|].
  destruct (bool_decide (MangaDiffType diff = DiffTypeMissing)).
  - destruct (DownloadMangaImages _ _) as [assets [[b c] [|]]]; simpl; [|done].
    through_save.
  - destruct (MangaSnapshotOf diff) as [old|]; [|done].
    destruct (bool_decide (MangaDiffType diff = DiffTypeMetadata)); [|done].
    through_save.
Qed.

Lemma failed_saveAnimeSnapshot entry snapshot q :
  fails OpSaveAnimeSnapshot (localDb (manager q)) = true →
  failedAnimeQueue (saveAnimeSnapshot entry snapshot q)
  = <[ID (Media entry) := entry]> (failedAnimeQueue q) ∧
  localDb (manager (saveAnimeSnapshot entry snapshot q)) = localDb (manager q).
Proof.
  intros Hf. unfold saveAnimeSnapshot, SaveAnimeSnapshot. rewrite Hf. simpl.
  split; [done|]. by destruct (localDb (manager q)).
Qed.

Lemma failed_saveMangaSnapshot entry snapshot q :
  fails OpSaveMangaSnapshot (localDb (manager q)) = true →
  failedMangaQueue (saveMangaSnapshot entry snapshot q)
  = <[ID (Media entry) := entry]> (failedMangaQueue q) ∧
  localDb (manager (saveMangaSnapshot entry snapshot q)) = localDb (manager q).
Proof.
  intros Hf. unfold saveMangaSnapshot, SaveMangaSnapshot. rewrite Hf. simpl.
  split; [done|]. by destruct (localDb (manager q)).
Qed.

Lemma size_pos_nonempty (m : gmap string string) : (0 <? size m)%nat = true ↔ m ≠ ∅.
Proof.
  rewrite Nat.ltb_lt. split.
  - intros Hs ->. rewrite map_size_empty in Hs. lia.
  - intros Hne. destruct (size m) eqn:Hs; [|lia]. by apply map_size_empty_iff in Hs.
Qed.

Lemma anime_failure_routes_entry diff entry q :
  AnimeEntry diff = Some entry →
  foundLocalFiles (ID (Media entry)) (localFiles (manager q)) = true →
  AnimeFailure diff entry q →
  failedAnimeQueue (synchronizeAnime diff q)
  = <[ID (Media entry) := entry]> (failedAnimeQueue q) ∧
  localDb (manager (synchronizeAnime diff q)) = localDb (manager q).
Proof.
  intros Hentry Hfiles Hfail.
  unfold synchronizeAnime. rewrite Hentry. simpl. rewrite Hfiles. simpl.
  destruct Hfail as [err Htype Hmeta | md Htype Hmeta Hdl | md old Htype Hold Hmeta Hne Hdl
                    | md Htype Hmeta Hdl Hsave | md old Htype Hold Hmeta Hdl Hsave].
  - destruct (AnimeDiffType diff); [done|..]; simpl; by rewrite Hmeta.
  - rewrite Htype. simpl. rewrite Hmeta.
    unfold synchronizeMissingAnime. simpl.
    destruct (DownloadAnimeImages _ _ _) as [assets [[[b c] eps] ok]].
    simpl in Hdl. subst ok. done.
  - rewrite Htype. simpl. rewrite Hmeta, Hold.
    unfold synchronizeOutdatedAnime. simpl.
    apply size_pos_nonempty in Hne. rewrite Hne.
    destruct (DownloadAnimeEpisodeImages _ _ _) as [assets [paths ok]].
    simpl in Hdl. subst ok. done.
  - rewrite Htype. simpl. rewrite Hmeta.
    unfold synchronizeMissingAnime. simpl.
    destruct (DownloadAnimeImages _ _ _) as [assets [[[b c] eps] ok]].
    simpl in Hdl. subst ok. simpl.
    match goal with
    | |- context [saveAnimeSnapshot ?e ?s ?q0] =>
        destruct (failed_saveAnimeSnapshot e s q0 Hsave) as [-> ->]
    end. done.
  - rewrite Htype. simpl. rewrite Hmeta, Hold.
    unfold synchronizeOutdatedAnime. simpl.
    destruct (0 <? size _)%nat eqn:Hsize.
    + destruct Hdl as [Hempty|Hdl]; [by apply size_pos_nonempty in Hsize|].
      destruct (DownloadAnimeEpisodeImages _ _ _) as [assets [paths ok]].
      simpl in Hdl. subst ok. simpl.
      match goal with
      | |- context [saveAnimeSnapshot ?e ?s ?q0] =>
          destruct (failed_saveAnimeSnapshot e s q0 Hsave) as [-> ->]
      end. done.
    + match goal with
      | |- context [saveAnimeSnapshot ?e ?s ?q0] =>
          destruct (failed_saveAnimeSnapshot e s q0 Hsave) as [-> ->]
      end. done.
Qed.

Lemma manga_failure_routes_entry diff entry q :
  MangaEntry diff = Some entry →
  mangaListed entry q →
  containersOf (ID (Media entry)) (downloadedChapterContainers (manager q)) ≠ [] →
  MangaFailure diff entry q →
  failedMangaQueue (synchronizeManga diff q)
  = <[ID (Media entry) := entry]> (failedMangaQueue q) ∧
  localDb (manager (synchronizeManga diff q)) = localDb (manager q).
Proof.
  intros Hentry (collection & listEntry & Hc & Hfound & Hstatus) Hcontainers Hfail.
  unfold synchronizeManga. rewrite Hentry. simpl. rewrite Hc, Hfound.
  destruct (EntryStatus listEntry) as [st|]; [|done].
  destruct (containersOf _ _) as [|c cs] eqn:Hcs; [done|]. simpl.
  destruct Hfail as [Htype Hdl | Htype Hdl Hsave | old Htype Hold Hsave].
  - rewrite Htype. simpl. unfold synchronizeMissingManga. simpl.
    destruct (DownloadMangaImages _ _) as [assets [[b cv] ok]].
    simpl in Hdl. subst ok. done.
  - rewrite Htype. simpl. unfold synchronizeMissingManga. simpl.
    destruct (DownloadMangaImages _ _) as [assets [[b cv] ok]].
    simpl in Hdl. subst ok. simpl.
    match goal with
    | |- context [saveMangaSnapshot ?e ?s ?q0] =>
        destruct (failed_saveMangaSnapshot e s q0 Hsave) as [-> ->]
    end. done.
  - rewrite Htype, Hold. simpl. unfold synchronizeOutdatedManga.
    match goal with
    | |- context [saveMangaSnapshot ?e ?s ?q0] =>
        destruct (failed_saveMangaSnapshot e s q0 Hsave) as [-> ->]
    end. done.
Qed.

(** C6, amended.  [synchronizeAnime] and [synchronizeManga] never put a job
    on a queue.  When the metadata fetch, an image download or the save of
    the snapshot fails, the entry of the job is set in the failed queue of
    its kind under its media ID, and the snapshot store is left as it was.
    (The early returns of [synchronizeManga], taken when the remote manga
    collection is absent, does not list the media or lists it without a
    status, are not among these failures.) *)
Theorem failures_route_entry_to_failed_queue :
  (∀ diff q,
     animeJobQueue (synchronizeAnime diff q) = animeJobQueue q ∧
     mangaJobQueue (synchronizeAnime diff q) = mangaJobQueue q) ∧
  (∀ diff q,
     animeJobQueue (synchronizeManga diff q) = animeJobQueue q ∧
     mangaJobQueue (synchronizeManga diff q) = mangaJobQueue q) ∧
  (∀ diff entry q,
     AnimeEntry diff = Some entry →
     foundLocalFiles (ID (Media entry)) (localFiles (manager q)) = true →
     AnimeFailure diff entry q →
     failedAnimeQueue (synchronizeAnime diff q)
     = <[ID (Media entry) := entry]> (failedAnimeQueue q) ∧
     localDb (manager (synchronizeAnime diff q)) = localDb (manager q)) ∧
  (∀ diff entry q,
     MangaEntry diff = Some entry →
     mangaListed entry q →
     containersOf (ID (Media entry)) (downloadedChapterContainers (manager q)) ≠ [] →
     MangaFailure diff entry q →
     failedMangaQueue (synchronizeManga diff q)
     = <[ID (Media entry) := entry]> (failedMangaQueue q) ∧
     localDb (manager (synchronizeManga diff q)) = localDb (manager q)).
Proof.
  split_and!.
  - apply synchronizeAnime_queues.
  - apply synchronizeManga_queues.
  - apply anime_failure_routes_entry.
  - apply manga_failure_routes_entry.
Qed.

Lemma elem_of_deleteRows {A : Type} (key : A → Z) (k : Z) (rows : list A) (r : A) :
  r ∈ deleteRows key k rows ↔ r ∈ rows ∧ key r ≠ k.
Proof.
  unfold deleteRows. rewrite !list_elem_of_In, filter_In.
  rewrite negb_true_iff, bool_decide_eq_false. done.
Qed.

Lemma removeAnime_spec mId m :
  let m' := snd (removeAnime mId m) in
  localDb m' = snd (DeleteAnimeSnapshot mId (localDb m)) ∧
  mangaSnapshotRows (localDb m') = mangaSnapshotRows (localDb m) ∧
  (∀ s, s ∈ animeSnapshotRows (localDb m') → s ∈ animeSnapshotRows (localDb m)) ∧
  (fails OpDeleteAnimeSnapshot (localDb m) = false →
     (∀ s, s ∈ animeSnapshotRows (localDb m') → AnimeMediaId s ≠ mId) ∧
     localAssets m' = delete mId (localAssets m)).
Proof.
  unfold removeAnime, DeleteAnimeSnapshot.
  destruct (fails OpDeleteAnimeSnapshot (localDb m)); simpl.
  - split_and!; try done; try by destruct (localDb m).
  - split_and!; try done.
    + intros s Hs. by apply elem_of_deleteRows in Hs as [? _].
    + intros _. split; [|done]. intros s Hs. by apply elem_of_deleteRows in Hs as [_ ?].
Qed.

Lemma removeManga_spec mId m :
  let m' := snd (removeManga mId m) in
  localDb m' = snd (DeleteMangaSnapshot mId (localDb m)) ∧
  animeSnapshotRows (localDb m') = animeSnapshotRows (localDb m) ∧
  (∀ s, s ∈ mangaSnapshotRows (localDb m') → s ∈ mangaSnapshotRows (localDb m)) ∧
  (fails OpDeleteMangaSnapshot (localDb m) = false →
     (∀ s, s ∈ mangaSnapshotRows (localDb m') → MangaMediaId s ≠ mId) ∧
     localAssets m' = delete mId (localAssets m)).
Proof.
  unfold removeManga, DeleteMangaSnapshot.
  destruct (fails OpDeleteMangaSnapshot (localDb m)); simpl.
  - split_and!; try done; try by destruct (localDb m).
  - split_and!; try done.
    + intros s Hs. by apply elem_of_deleteRows in Hs as [? _].
    + intros _. split; [|done]. intros s Hs. by apply elem_of_deleteRows in Hs as [_ ?].
Qed.

(** C5, amended.  For an anime job whose media has no local file,
    [synchronizeAnime] calls [removeAnime] and does nothing else, whatever
    the diff type: no snapshot is saved, nothing is fetched, and unless the
    store fails on the delete the snapshot and the assets of the media are
    gone.  [synchronizeManga] does the same with [removeManga] for a manga
    job whose media has no chapter container, provided that the remote manga
    collection is present and lists the media with a status. *)
Theorem media_without_local_dependencies_is_removed :
  (∀ diff entry q,
     AnimeEntry diff = Some entry →
     foundLocalFiles (ID (Media entry)) (localFiles (manager q)) = false →
     let q' := synchronizeAnime diff q in
     localDb (manager q') = snd (DeleteAnimeSnapshot (ID (Media entry)) (localDb (manager q))) ∧
     (∀ s, s ∈ animeSnapshotRows (localDb (manager q')) →
           s ∈ animeSnapshotRows (localDb (manager q))) ∧
     mangaSnapshotRows (localDb (manager q')) = mangaSnapshotRows (localDb (manager q)) ∧
     fetches (manager q') = fetches (manager q) ∧
     failedAnimeQueue q' = failedAnimeQueue q ∧
     (fails OpDeleteAnimeSnapshot (localDb (manager q)) = false →
        (∀ s, s ∈ animeSnapshotRows (localDb (manager q')) → AnimeMediaId s ≠ ID (Media entry)) ∧
        localAssets (manager q') = delete (ID (Media entry)) (localAssets (manager q)))) ∧
  (∀ diff entry q,
     MangaEntry diff = Some entry →
     mangaListed entry q →
     containersOf (ID (Media entry)) (downloadedChapterContainers (manager q)) = [] →
     let q' := synchronizeManga diff q in
     localDb (manager q') = snd (DeleteMangaSnapshot (ID (Media entry)) (localDb (manager q))) ∧
     (∀ s, s ∈ mangaSnapshotRows (localDb (manager q')) →
           s ∈ mangaSnapshotRows (localDb (manager q))) ∧
     animeSnapshotRows (localDb (manager q')) = animeSnapshotRows (localDb (manager q)) ∧
     fetches (manager q') = fetches (manager q) ∧
     failedMangaQueue q' = failedMangaQueue q ∧
     (fails OpDeleteMangaSnapshot (localDb (manager q)) = false →
        (∀ s, s ∈ mangaSnapshotRows (localDb (manager q')) → MangaMediaId s ≠ ID (Media entry)) ∧
        localAssets (manager q') = delete (ID (Media entry)) (localAssets (manager q)))).
Proof.
  split.
  - intros diff entry q Hentry Hfiles q'. subst q'.
    unfold synchronizeAnime. rewrite Hentry. simpl. rewrite Hfiles. simpl.
    match goal with
    | |- context [removeAnime ?i ?m] =>
        pose proof (removeAnime_spec i m) as Hrm; simpl in Hrm;
        destruct Hrm as (Hdb & Hmanga & Hsub & Hgone)
    end.
    split_and!; try done.
    unfold removeAnime, DeleteAnimeSnapshot. simpl. by destruct (fails _ _).
  - intros diff entry q Hentry (collection & listEntry & Hc & Hfound & Hstatus) Hnone q'.
    subst q'. unfold synchronizeManga. rewrite Hentry. simpl. rewrite Hc, Hfound.
    destruct (EntryStatus listEntry) as [st|]; [|done]. rewrite Hnone. simpl.
    match goal with
    | |- context [removeManga ?i ?m] =>
        pose proof (removeManga_spec i m) as Hrm; simpl in Hrm;
        destruct Hrm as (Hdb & Hanime & Hsub & Hgone)
    end.
    split_and!; try done.
    unfold removeManga, DeleteMangaSnapshot. simpl. by destruct (fails _ _).
Qed.

Lemma currentEpisodeImageUrls_lookup animeMetadata k url :
  currentEpisodeImageUrls animeMetadata !! k = Some url ↔
  ∃ episode, Episodes animeMetadata !! k = Some episode ∧ Image episode = url ∧ url ≠ "".
Proof.
  unfold currentEpisodeImageUrls. rewrite lookup_omap.
  destruct (Episodes animeMetadata !! k) as [episode|]; simpl.
  - case_bool_decide as Himg; split.
    + discriminate.
    + intros (episode' & Heq & Hurl & Hne). inversion Heq; subst. congruence.
    + intros Heq. inversion Heq; subst. by exists episode.
    + intros (episode' & Heq & Hurl & Hne). inversion Heq; subst. done.
  - split; [discriminate|]. intros (episode & Heq & _). discriminate.
Qed.

Lemma episodeImageUrlsToDownload_lookup animeMetadata paths k url :
  episodeImageUrlsToDownload animeMetadata paths !! k = Some url ↔
  (∃ episode, Episodes animeMetadata !! k = Some episode ∧ Image episode = url ∧ url ≠ "") ∧
  paths !! k = None.
Proof.
  unfold episodeImageUrlsToDownload.
  rewrite map_lookup_filter_Some, currentEpisodeImageUrls_lookup. done.
Qed.

Lemma saved_saveAnimeSnapshot entry snapshot q :
  fails OpSaveAnimeSnapshot (localDb (manager q)) = false →
  animeSnapshotRows (localDb (manager (saveAnimeSnapshot entry snapshot q)))
  = upsert AnimeMediaId snapshot (animeSnapshotRows (localDb (manager q))) ∧
  failedAnimeQueue (saveAnimeSnapshot entry snapshot q) = failedAnimeQueue q ∧
  fetches (manager (saveAnimeSnapshot entry snapshot q)) = fetches (manager q).
Proof.
  intros Hf. unfold saveAnimeSnapshot, SaveAnimeSnapshot. by rewrite Hf.
Qed.

Lemma fetches_saveAnimeSnapshot entry snapshot q :
  fetches (manager (saveAnimeSnapshot entry snapshot q)) = fetches (manager q).
Proof. unfold saveAnimeSnapshot. by destruct (SaveAnimeSnapshot _ _) as [[e|] db]. Qed.

(** C7.  For an anime diff of type [DiffTypeMetadata] that carries a
    snapshot, of a media that has local files and whose metadata is fetched:
    the episode images requested from the downloader are those of the
    episode keys that the fresh metadata gives a non-empty image and that
    the snapshot's [EpisodeImagePaths] lacks, and nothing else is
    downloaded; when that download succeeds (or is not needed) and the save
    succeeds, the stored snapshot is the old one with the fresh metadata, the
    recomputed reference key, and the downloaded paths added to the old
    paths, which stay in place. *)
Theorem outdated_anime_downloads_missing_episode_images diff entry old animeMetadata q :
  AnimeEntry diff = Some entry →
  AnimeDiffType diff = DiffTypeMetadata →
  AnimeSnapshotOf diff = Some old →
  foundLocalFiles (ID (Media entry)) (localFiles (manager q)) = true →
  GetAnimeMetadata (ID (Media entry)) = inl animeMetadata →
  let missing := episodeImageUrlsToDownload animeMetadata (EpisodeImagePaths old) in
  let download :=
    DownloadAnimeEpisodeImages (localAssets (manager q)) (ID (Media entry)) missing in
  let downloaded := if decide (missing = ∅) then ∅ else fst (snd download) in
  let q' := synchronizeAnime diff q in
  (∀ k url,
     missing !! k = Some url ↔
     (∃ episode, Episodes animeMetadata !! k = Some episode ∧
                 Image episode = url ∧ url ≠ "") ∧
     EpisodeImagePaths old !! k = None) ∧
  fetches (manager q')
  = fetches (manager q)
    ++ FetchAnimeMetadata (ID (Media entry))
       :: (if decide (missing = ∅) then []
           else [FetchAnimeEpisodeImages (ID (Media entry)) missing]) ∧
  ((missing = ∅ ∨ snd (snd download) = true) →
   fails OpSaveAnimeSnapshot (localDb (manager q)) = false →
   animeSnapshotRows (localDb (manager q'))
   = upsert AnimeMediaId
       {| AnimeMediaId := AnimeMediaId old;
          AnimeMetadataOf := animeMetadata;
          AnimeBannerImagePath := AnimeBannerImagePath old;
          AnimeCoverImagePath := AnimeCoverImagePath old;
          EpisodeImagePaths := downloaded ∪ EpisodeImagePaths old;
          AnimeReferenceKey := GetAnimeReferenceKey (Media entry) (localFiles (manager q)) |}
       (animeSnapshotRows (localDb (manager q))) ∧
   (∀ k path, EpisodeImagePaths old !! k = Some path → downloaded !! k = None →
              (downloaded ∪ EpisodeImagePaths old) !! k = Some path) ∧
   (dom downloaded ⊆ dom missing → EpisodeImagePaths old ⊆ downloaded ∪ EpisodeImagePaths old)).
Proof.
  intros Hentry Htype Hold Hfiles Hmeta missing download downloaded q'.
  split; [intros k url; apply episodeImageUrlsToDownload_lookup|].
  assert (Hpaths : ∀ k path, EpisodeImagePaths old !! k = Some path →
                     downloaded !! k = None →
                     (downloaded ∪ EpisodeImagePaths old) !! k = Some path).
  { intros k path Hk Hnew. rewrite lookup_union_r by done. done. }
  assert (Hkept : dom downloaded ⊆ dom missing →
                  EpisodeImagePaths old ⊆ downloaded ∪ EpisodeImagePaths old).
  { intros Hdom. apply map_union_subseteq_r. apply map_disjoint_dom.
    intros k Hd Ho. apply Hdom in Hd.
    apply elem_of_dom in Hd as [url Hurl]. apply elem_of_dom in Ho as [path Hpath].
    apply episodeImageUrlsToDownload_lookup in Hurl as [_ Hnone]. congruence. }
  subst q'. unfold synchronizeAnime. rewrite Hentry. simpl. rewrite Hfiles. simpl.
  rewrite Htype. simpl. rewrite Hmeta, Hold.
  unfold synchronizeOutdatedAnime. simpl. fold missing.
  destruct (0 <? size missing)%nat eqn:Hsize.
  - assert (Hne : missing ≠ ∅) by (by apply size_pos_nonempty).
    subst downloaded. rewrite !decide_False in * by done.
    fold download. destruct download as [assets [paths ok]] eqn:Hdl. simpl in *.
    destruct ok; simpl.
    + rewrite fetches_saveAnimeSnapshot. simpl. split; [by rewrite <- app_assoc|].
      intros _ Hsave.
      match goal with
      | |- context [saveAnimeSnapshot ?e ?s ?q0] =>
          destruct (saved_saveAnimeSnapshot e s q0 Hsave) as (-> & _ & _)
      end.
      split_and!; done.
    + split; [by rewrite <- app_assoc|]. intros [?|?]; done.
  - assert (He : missing = ∅).
    { destruct (decide (missing = ∅)) as [|Hne]; [done|].
      apply size_pos_nonempty in Hne. congruence. }
    subst downloaded. rewrite !decide_True in * by done.
    rewrite fetches_saveAnimeSnapshot. simpl. split; [done|].
    intros _ Hsave.
    match goal with
    | |- context [saveAnimeSnapshot ?e ?s ?q0] =>
        destruct (saved_saveAnimeSnapshot e s q0 Hsave) as (-> & _ & _)
    end.
    simpl. rewrite (left_id_L ∅ (∪)). split_and!; done.
Qed.

(** *** The two workers *)

Lemma count_app e (t1 t2 : list Event) : count e (t1 ++ t2) = (count e t1 + count e t2)%nat.
Proof. unfold count. by rewrite filter_app, length_app. Qed.

Lemma count_nil e : count e [] = 0%nat.
Proof. done. Qed.

Lemma accounted_spawn q : accounted (spawn q) [].
Proof. unfold accounted. simpl. split_and!; reflexivity. Qed.

Ltac count_events :=
  rewrite ?count_app;
  repeat match goal with
         | |- context [count ?e (?x :: ?l)] =>
             let v := eval vm_compute in (count e (x :: l)) in
             change (count e (x :: l)) with v
         | |- context [count ?e []] => change (count e []) with 0%nat
         end;
  lia.

Ltac innermost_case H :=
  match type of H with
  | context [match ?x with _ => _ end] =>
      lazymatch x with
      | context [match _ with _ => _ end] => fail
      | _ => destruct x eqn:?; simpl in H
      end
  end.

Lemma accounted_step mv m m' trace evs :
  accounted m trace → step mv m = Some (m', evs) → accounted m' (trace ++ evs).
Proof.
  intros (HA1 & HA2 & HA3 & HM1 & HM2 & HM3 & Hmu & Hex) Hstep.
  destruct mv as [job|job| |[|]]; simpl in Hstep.
  - destruct (_ <? _)%nat; [|discriminate]. inversion Hstep; subst; simpl.
    rewrite app_nil_r. by split_and!.
  - destruct (_ <? _)%nat; [|discriminate]. inversion Hstep; subst; simpl.
    rewrite app_nil_r. by split_and!.
  - destruct (doneUpdatingLocalCollections (shared m)); [discriminate|].
    inversion Hstep; subst; simpl. rewrite app_nil_r. by split_and!.
  - unfold workerStep in Hstep.
    destruct (animePC m) eqn:Hpc; rewrite ?Hpc in *; simpl in *;
      repeat innermost_case Hstep;
      try discriminate; inversion Hstep; subst; simpl;
      unfold accounted; simpl; rewrite ?Hpc; simpl;
      destruct (inCheck (mangaPC m)) eqn:HinM; simpl in *; try discriminate;
      split_and!; try done; try count_events; try congruence.
  - unfold workerStep in Hstep.
    destruct (mangaPC m) eqn:Hpc; rewrite ?Hpc in *; simpl in *;
      repeat innermost_case Hstep;
      try discriminate; inversion Hstep; subst; simpl;
      unfold accounted; simpl; rewrite ?Hpc; simpl;
      destruct (inCheck (animePC m)) eqn:HinA; simpl in *; try discriminate;
      split_and!; try done; try count_events; try congruence.
Qed.

Lemma accounted_run schedule m m' trace evs :
  accounted m trace → run schedule m = Some (m', evs) → accounted m' (trace ++ evs).
Proof.
  revert m trace evs. induction schedule as [|mv schedule IH]; intros m trace evs Hacc Hrun;
    simpl in Hrun.
  - inversion Hrun; subst. by rewrite app_nil_r.
  - destruct (step mv m) as [[m1 evs1]|] eqn:Hstep; [|discriminate].
    destruct (run schedule m1) as [[m2 evs2]|] eqn:Hrest; [|discriminate].
    inversion Hrun; subst. rewrite app_assoc.
    eapply IH; [|done]. by eapply accounted_step.
Qed.

Lemma checkAndUpdateLocalCollections_cases q :
  checkAndUpdateLocalCollections q
  = if shouldUpdateLocalCollections q && queuesEmpty q
    then sendDone (withShouldUpdate false (runBuilder q))
    else Returned q.
Proof.
  unfold checkAndUpdateLocalCollections, queuesEmpty.
  destruct (shouldUpdateLocalCollections q); [|done].
  by destruct (_ && _).
Qed.

(** The check of the anime worker, run with no other move in between, is
    [checkAndUpdateLocalCollections]. *)
Lemma anime_check_alone q pc :
  ∃ n evs,
    run (replicate n (Step AnimeWorker))
        {| shared := q; mu := None; animePC := AtLock; mangaPC := pc |}
    = Some (match checkAndUpdateLocalCollections q with
            | Returned q' =>
                {| shared := q'; mu := None; animePC := AtReceive; mangaPC := pc |}
            | BlockedOnSend q' =>
                {| shared := q'; mu := Some AnimeWorker; animePC := AtSend; mangaPC := pc |}
            end, evs)
    ∧ count (EvPass AnimeWorker) evs
      = (if shouldUpdateLocalCollections q && queuesEmpty q then 1 else 0)%nat.
Proof.
  rewrite checkAndUpdateLocalCollections_cases. unfold queuesEmpty.
  destruct (shouldUpdateLocalCollections q) eqn:Hflag; simpl.
  - destruct (animeJobQueue q) as [|ja aq] eqn:Ha; simpl.
    + destruct (mangaJobQueue q) as [|jm mq] eqn:Hm; simpl.
      * destruct (sendDone (withShouldUpdate false (runBuilder q))) as [q'|q'] eqn:Hsend.
        -- exists 8%nat. eexists. simpl.
           repeat (first [rewrite Hflag | rewrite Ha | rewrite Hm | rewrite Hsend]; simpl).
           split; reflexivity.
        -- exists 6%nat. eexists. simpl.
           repeat (first [rewrite Hflag | rewrite Ha | rewrite Hm]; simpl).
           unfold sendDone in Hsend. destruct (_ <? _)%nat; [discriminate|].
           inversion Hsend; subst. split; reflexivity.
      * exists 5%nat. eexists. simpl.
        repeat (first [rewrite Hflag | rewrite Ha | rewrite Hm]; simpl).
        split; reflexivity.
    + exists 4%nat. eexists. simpl.
      repeat (first [rewrite Hflag | rewrite Ha]; simpl).
      split; reflexivity.
  - exists 3%nat. eexists. simpl. rewrite Hflag. simpl. split; reflexivity.
Qed.

(** C2, amended.  [checkAndUpdateLocalCollections] runs one Builder pass,
    clears the flag and sends one signal exactly when it finds the flag set
    and both queues empty, and else does nothing.  In every run of the two
    workers, each worker has made one check per job by the time it waits for
    the next job, has run one pass per successful check and sent one signal
    per pass, and runs a pass only while it holds the mutex; so the passes
    of a worker never outnumber the jobs it handled. *)
Theorem workers_check_after_each_job :
  (∀ q,
     checkAndUpdateLocalCollections q
     = if shouldUpdateLocalCollections q && queuesEmpty q
       then sendDone (withShouldUpdate false (runBuilder q))
       else Returned q) ∧
  (∀ q schedule m trace,
     run schedule (spawn q) = Some (m, trace) →
     ∀ w,
       (count (EvSignal w) trace ≤ count (EvPass w) trace)%nat ∧
       (count (EvPass w) trace ≤ count (EvCheck w true) trace)%nat ∧
       (count (EvCheck w true) trace + count (EvCheck w false) trace
        ≤ count (EvReceive w) trace)%nat ∧
       (idle w m →
          (count (EvCheck w true) trace + count (EvCheck w false) trace)%nat
          = count (EvReceive w) trace ∧
          count (EvPass w) trace = count (EvCheck w true) trace ∧
          count (EvSignal w) trace = count (EvPass w) trace) ∧
       (building w m → mu m = Some w)).
Proof.
  split; [apply checkAndUpdateLocalCollections_cases|].
  intros q schedule m trace Hrun w.
  pose proof (accounted_run schedule (spawn q) m [] trace (accounted_spawn q) Hrun) as Hacc.
  simpl in Hacc. destruct Hacc as (HA1 & HA2 & HA3 & HM1 & HM2 & HM3 & Hmu & Hex).
  destruct w; simpl.
  - split_and!; try lia.
    + intros Hidle. rewrite Hidle in *. simpl in *. lia.
    + intros Hb. rewrite Hb in *. simpl in *. done.
  - split_and!; try lia.
    + intros Hidle. rewrite Hidle in *. simpl in *. lia.
    + intros Hb. rewrite Hb in *. simpl in *.
      destruct (inCheck (animePC m)); [discriminate|done].
Qed.

End Engine.

(** ** The remote collections are not mutated *)

Section HeapProperties.

Import Heap.

(** The objects of [base] are the remote data; an address is new when it is
    past them. *)
Definition new (base : Heap) (l : loc) : Prop := length base ≤ l.

(** A list collection made during the pass holds lists made during the pass. *)
Definition holdsNew (base : Heap) (o : Obj) : Prop :=
  ∀ lists, o = OListCollection lists → Forall (new base) lists.

Definition newListsOnly (base h : Heap) : Prop :=
  ∀ l o, new base l → h !! l = Some o → holdsNew base o.

(** [c] leaves the objects of [base] as they are, whether it returns or
    panics, and returns a value that satisfies [Q]. *)
Definition safe (base : Heap) {A : Type} (c : M A) (Q : A → Prop) : Prop :=
  ∀ h, base `prefix_of` h → newListsOnly base h →
    match c h with
    | Ok a h' => base `prefix_of` h' ∧ newListsOnly base h' ∧ Q a
    | Panic h' => base `prefix_of` h'
    end.

(** What is assumed of [BaseAnimeDeepCopy] and [BaseMangaDeepCopy]: a deep
    copy changes no object, allocates no list collection, and returns nil or
    the address of an object it allocated. *)
Definition deepCopies (copy : option loc → M (option loc)) : Prop :=
  ∀ p h,
    ∃ objs, heapOf (copy p h) = h ++ objs ∧
            Forall (λ o, ∀ lists, o ≠ OListCollection lists) objs ∧
            ∀ l h', copy p h = Ok (Some l) h' → length h ≤ l.

Lemma safe_ret base {A : Type} (a : A) (Q : A → Prop) : Q a → safe base (mret a) Q.
Proof. intros HQ h Hp HJ. simpl. done. Qed.

Lemma safe_panic base {A : Type} (Q : A → Prop) : safe base panic Q.
Proof. intros h Hp HJ. done. Qed.

Lemma safe_bind base {A B : Type} (c : M A) (k : A → M B) (Q : A → Prop) (R : B → Prop) :
  safe base c Q → (∀ a, Q a → safe base (k a) R) → safe base (c ≫= k) R.
Proof.
  intros Hc Hk h Hp HJ. unfold mbind, M_bind.
  specialize (Hc h Hp HJ). destruct (c h) as [a h1|h1]; [|done].
  destruct Hc as (Hp1 & HJ1 & HQ). by apply Hk.
Qed.

Lemma safe_weaken base {A : Type} (c : M A) (Q Q' : A → Prop) :
  safe base c Q → (∀ a, Q a → Q' a) → safe base c Q'.
Proof.
  intros Hc HQ h Hp HJ. specialize (Hc h Hp HJ).
  destruct (c h); [|done]. destruct Hc as (? & ? & ?). eauto.
Qed.

Lemma newListsOnly_app base h o :
  holdsNew base o → newListsOnly base h → newListsOnly base (h ++ [o]).
Proof.
  intros Ho HJ l o' Hl Hlook.
  destruct (decide (l < length h)) as [Hlt|Hge].
  - rewrite lookup_app_l in Hlook by done. by eapply HJ.
  - rewrite lookup_app_r in Hlook by lia.
    destruct (l - length h) as [|n] eqn:Hn; simpl in Hlook; [|done].
    by inversion Hlook; subst.
Qed.

Lemma safe_alloc base o : holdsNew base o → safe base (alloc o) (new base).
Proof.
  intros Ho h Hp HJ. unfold alloc. split_and!.
  - by apply prefix_app_r.
  - by apply newListsOnly_app.
  - unfold new. by apply prefix_length.
Qed.

Lemma safe_load base l : safe base (load l) (λ _, True).
Proof. intros h Hp HJ. unfold load. by destruct (h !! l). Qed.

Lemma prefix_insert_new (base h : Heap) l o :
  base `prefix_of` h → new base l → base `prefix_of` <[l:=o]> h.
Proof.
  intros [k ->] Hl. unfold new in Hl.
  rewrite insert_app_r_alt by done. by apply prefix_app_r.
Qed.

Lemma safe_store base l o :
  new base l → holdsNew base o → safe base (store l o) (λ _, True).
Proof.
  intros Hl Ho h Hp HJ. unfold store.
  destruct (decide (l < length h)) as [Hlt|]; [|done].
  split_and!; [by apply prefix_insert_new| |done].
  intros l' o' Hl' Hlook.
  destruct (decide (l = l')) as [->|Hne].
  - rewrite list_lookup_insert_eq in Hlook by done. by inversion Hlook; subst.
  - rewrite list_lookup_insert_ne in Hlook by done. by eapply HJ.
Qed.

Lemma safe_forEach base {A : Type} (xs : list A) (body : A → M unit) :
  (∀ x, x ∈ xs → safe base (body x) (λ _, True)) →
  safe base (forEach xs body) (λ _, True).
Proof.
  induction xs as [|x xs IH]; intros Hbody; simpl.
  - by apply safe_ret.
  - eapply safe_bind.
    + apply Hbody. apply elem_of_cons. by left.
    + intros _ _. apply IH. intros y Hy. apply Hbody. apply elem_of_cons. by right.
Qed.

(** A returned pointer is nil or new. *)
Definition newOrNil (base : Heap) (p : option loc) : Prop :=
  ∀ l, p = Some l → new base l.

Lemma holdsNew_other base o : (∀ lists, o ≠ OListCollection lists) → holdsNew base o.
Proof. intros Ho lists ->. by destruct (Ho lists). Qed.

Ltac not_a_list_collection :=
  apply holdsNew_other; intros ?; discriminate.

Lemma safe_loadStr base l : safe base (loadStr l) (λ _, True).
Proof.
  eapply safe_bind; [apply safe_load|]. intros [] _; (by apply safe_ret) || apply safe_panic.
Qed.

Lemma safe_loadCoverImage base l : safe base (loadCoverImage l) (λ _, True).
Proof.
  eapply safe_bind; [apply safe_load|]. intros [] _; (by apply safe_ret) || apply safe_panic.
Qed.

Lemma safe_loadMedia base l : safe base (loadMedia l) (λ _, True).
Proof.
  eapply safe_bind; [apply safe_load|]. intros [] _; (by apply safe_ret) || apply safe_panic.
Qed.

Lemma safe_loadDate base l : safe base (loadDate l) (λ _, True).
Proof.
  eapply safe_bind; [apply safe_load|]. intros [] _; (by apply safe_ret) || apply safe_panic.
Qed.

Lemma safe_loadEntry base l : safe base (loadEntry l) (λ _, True).
Proof.
  eapply safe_bind; [apply safe_load|]. intros [] _; (by apply safe_ret) || apply safe_panic.
Qed.

Lemma safe_loadLists base l : safe base (loadLists l) (λ _, True).
Proof.
  eapply safe_bind; [apply safe_load|]. intros [] _; (by apply safe_ret) || apply safe_panic.
Qed.

Lemma safe_loadCollection base l : safe base (loadCollection l) (λ _, True).
Proof.
  eapply safe_bind; [apply safe_load|]. intros [] _; (by apply safe_ret) || apply safe_panic.
Qed.

Lemma safe_loadListCollection base l : safe base (loadListCollection l) (λ _, True).
Proof.
  eapply safe_bind; [apply safe_load|]. intros [] _; (by apply safe_ret) || apply safe_panic.
Qed.

(** The lists of a list collection made during the pass are new. *)
Lemma safe_loadListCollection_new base l :
  new base l → safe base (loadListCollection l) (Forall (new base)).
Proof.
  intros Hl h Hp HJ. unfold loadListCollection, load, mbind, M_bind.
  destruct (h !! l) as [o|] eqn:Hlook; [|done].
  destruct o; simpl; try done.
  split_and!; [done..|]. by eapply HJ.
Qed.

Lemma safe_ToNewPointer base p : safe base (ToNewPointer p) (newOrNil base).
Proof.
  destruct p as [l|]; simpl; [|by apply safe_ret].
  eapply safe_bind; [apply safe_load|]. intros o _.
  destruct o; simpl; try apply safe_panic.
  all: eapply safe_bind; [apply safe_alloc; not_a_list_collection|].
  all: intros l' Hl'; apply safe_ret; intros ? [= <-]; done.
Qed.

Lemma newListsOnly_objs base h objs :
  Forall (λ o, ∀ lists, o ≠ OListCollection lists) objs →
  newListsOnly base h → newListsOnly base (h ++ objs).
Proof.
  intros Hobjs HJ l o Hl Hlook.
  destruct (decide (l < length h)) as [Hlt|Hge].
  - rewrite lookup_app_l in Hlook by done. by eapply HJ.
  - rewrite lookup_app_r in Hlook by lia.
    apply holdsNew_other. eapply Forall_forall in Hobjs; [done|].
    by eapply list_elem_of_lookup_2.
Qed.

Lemma safe_deepCopy base copy p :
  deepCopies copy → safe base (copy p) (newOrNil base).
Proof.
  intros Hcopy h Hp HJ. destruct (Hcopy p h) as (objs & Hheap & Hobjs & Hfresh).
  destruct (copy p h) as [r h'|h'] eqn:Hr; simpl in Hheap; subst h'.
  - split_and!; [by apply prefix_app_r|by apply newListsOnly_objs|].
    intros l ->. specialize (Hfresh l _ eq_refl).
    unfold new. apply prefix_length in Hp. lia.
  - by apply prefix_app_r.
Qed.

Section ProgramProperties.

Variable FormatAssetUrl : Z → string → option string.

Lemma safe_formatAssetUrl base mId path :
  safe base (formatAssetUrl FormatAssetUrl mId path) (newOrNil base).
Proof.
  unfold formatAssetUrl. destruct (FormatAssetUrl mId path) as [url|]; [|by apply safe_ret].
  eapply safe_bind; [apply safe_alloc; not_a_list_collection|].
  intros l Hl. apply safe_ret. by intros ? [= <-].
Qed.

Lemma safe_remoteLists base _collection :
  safe base (remoteLists _collection) (λ _, True).
Proof.
  eapply safe_bind; [apply safe_loadCollection|]. intros [l|] _.
  - apply safe_loadListCollection.
  - by apply safe_ret.
Qed.

Lemma safe_newCollection base :
  safe base newCollection (λ r, new base (fst r) ∧ new base (snd r)).
Proof.
  eapply safe_bind.
  { apply safe_alloc. intros lists [= <-]. constructor. }
  intros mlc Hmlc. eapply safe_bind; [apply safe_alloc; not_a_list_collection|].
  intros c Hc. by apply safe_ret.
Qed.

Lemma safe_appendList base mlc list :
  new base mlc → new base list → safe base (appendList mlc list) (λ _, True).
Proof.
  intros Hmlc Hlist. eapply safe_bind; [by apply safe_loadListCollection_new|].
  intros lists Hlists. apply safe_store; [done|].
  intros lists' [= <-]. apply Forall_app. split; [done|]. by constructor.
Qed.

Lemma safe_createList base mlc _list :
  new base mlc → safe base (createList mlc _list) (λ _, True).
Proof.
  intros Hmlc. eapply safe_bind; [apply safe_loadLists|]. intros _l _.
  destruct (StatusPtr _l) as [st|] eqn:Hst; [|by apply safe_ret].
  eapply safe_bind; [apply safe_ToNewPointer|]. intros status _.
  eapply safe_bind; [apply safe_ToNewPointer|]. intros name _.
  eapply safe_bind; [apply safe_ToNewPointer|]. intros isCustomList _.
  eapply safe_bind; [apply safe_alloc; not_a_list_collection|]. intros list Hlist.
  by apply safe_appendList.
Qed.

Lemma safe_newDate base d : safe base (newDate d) (newOrNil base).
Proof.
  destruct d as [l|]; simpl; [|by apply safe_ret].
  eapply safe_bind; [apply safe_loadDate|]. intros _d _.
  eapply safe_bind; [apply safe_ToNewPointer|]. intros year _.
  eapply safe_bind; [apply safe_ToNewPointer|]. intros month _.
  eapply safe_bind; [apply safe_ToNewPointer|]. intros day _.
  eapply safe_bind; [apply safe_alloc; not_a_list_collection|]. intros l' Hl'.
  apply safe_ret. by intros ? [= <-].
Qed.

Lemma safe_setBannerImage base edited url :
  newOrNil base edited → safe base (setBannerImage edited url) (λ _, True).
Proof.
  intros Hedited. destruct edited as [l|]; simpl; [|apply safe_panic].
  eapply safe_bind; [apply safe_loadMedia|]. intros m _.
  apply safe_store; [by apply Hedited|not_a_list_collection].
Qed.

Lemma safe_setCoverImage base edited cover :
  newOrNil base edited → safe base (setCoverImage edited cover) (λ _, True).
Proof.
  intros Hedited. destruct edited as [l|]; simpl; [|apply safe_panic].
  eapply safe_bind; [apply safe_loadMedia|]. intros m _.
  apply safe_store; [by apply Hedited|not_a_list_collection].
Qed.

Section KindProperties.

Variable DeepCopy : option loc → M (option loc).
Hypothesis DeepCopy_copies : deepCopies DeepCopy.

Lemma safe_newEntry base snapshot _entry :
  safe base (newEntry FormatAssetUrl DeepCopy snapshot _entry) (new base).
Proof.
  eapply safe_bind; [apply safe_loadEntry|]. intros _e _.
  eapply safe_bind; [by apply safe_deepCopy|]. intros edited Hedited.
  eapply safe_bind; [apply safe_formatAssetUrl|]. intros banner _.
  eapply safe_bind; [by apply safe_setBannerImage|]. intros _ _.
  do 4 (eapply safe_bind; [apply safe_formatAssetUrl|]; intros ? _).
  eapply safe_bind; [apply safe_alloc; not_a_list_collection|]. intros cover _.
  eapply safe_bind; [by apply safe_setCoverImage|]. intros _ _.
  do 2 (eapply safe_bind; [apply safe_newDate|]; intros ? _).
  do 6 (eapply safe_bind; [apply safe_ToNewPointer|]; intros ? _).
  apply safe_alloc; not_a_list_collection.
Qed.

Lemma safe_appendEntry base list entry :
  new base list → safe base (appendEntry list entry) (λ _, True).
Proof.
  intros Hlist. eapply safe_bind; [apply safe_loadLists|]. intros l _.
  apply safe_store; [done|not_a_list_collection].
Qed.

Lemma safe_addToRightList base _status snapshot _entry lists :
  Forall (new base) lists →
  safe base (addToRightList FormatAssetUrl DeepCopy _status snapshot _entry lists) (λ _, True).
Proof.
  induction lists as [|list lists IH]; intros Hlists; simpl; [by apply safe_ret|].
  inversion Hlists as [|? ? Hlist Hrest]; subst.
  eapply safe_bind; [apply safe_loadLists|]. intros l _.
  destruct (StatusPtr l) as [status|]; [|by apply IH].
  eapply safe_bind; [apply safe_loadStr|]. intros s _.
  eapply safe_bind; [apply safe_loadStr|]. intros _s _.
  destruct (bool_decide (s ≠ _s)); [by apply IH|].
  eapply safe_bind; [apply safe_newEntry|]. intros entry _.
  by apply safe_appendEntry.
Qed.

Lemma safe_addEntry base tracked snapshotMap mlc _status _entry :
  new base mlc →
  safe base (addEntry FormatAssetUrl DeepCopy tracked snapshotMap mlc _status _entry)
       (λ _, True).
Proof.
  intros Hmlc. eapply safe_bind; [apply safe_loadEntry|]. intros _e _.
  eapply safe_bind.
  { instantiate (1 := λ _, True). unfold getMediaID.
    destruct (MediaPtr _e); [|by apply safe_ret].
    eapply safe_bind; [apply safe_loadMedia|]. intros m _. by apply safe_ret. }
  intros mId _.
  destruct (tracked !! mId); [|by apply safe_ret].
  destruct (snapshotMap !! mId) as [snapshot|]; [|by apply safe_ret].
  eapply safe_bind; [by apply safe_loadListCollection_new|]. intros lists Hlists.
  by apply safe_addToRightList.
Qed.

Lemma safe_addEntries base tracked snapshotMap mlc _lists :
  new base mlc →
  safe base (addEntries FormatAssetUrl DeepCopy tracked snapshotMap mlc _lists) (λ _, True).
Proof.
  intros Hmlc. apply safe_forEach. intros _list _.
  eapply safe_bind; [apply safe_loadLists|]. intros _l _.
  destruct (StatusPtr _l) as [_status|]; [|by apply safe_ret].
  apply safe_forEach. intros _entry _. by apply safe_addEntry.
Qed.

Lemma safe_fillCollection base tracked snapshots _collection mlc :
  new base mlc →
  safe base (fillCollection FormatAssetUrl DeepCopy tracked snapshots _collection mlc)
       (λ _, True).
Proof.
  intros Hmlc. unfold fillCollection.
  destruct (0 <? length snapshots)%nat; [|by apply safe_ret].
  eapply safe_bind; [apply safe_remoteLists|]. intros _lists _.
  by apply safe_addEntries.
Qed.

End KindProperties.

End ProgramProperties.

(** *** What is read off the old objects stays the same *)

Ltac read_cell Hp :=
  match goal with
  | H : context [?h !! ?l] |- _ =>
      lazymatch type of Hp with
      | h `prefix_of` ?h' =>
          let o := fresh "o" in
          let Hl := fresh "Hl" in
          destruct (h !! l) as [o|] eqn:Hl; [|discriminate];
          rewrite (prefix_lookup_Some _ _ _ _ Hl Hp)
      end
  end.

Lemma readStr_prefix h h' p v :
  h `prefix_of` h' → readStr h p = Some v → readStr h' p = Some v.
Proof.
  intros Hp Hr. unfold readStr in *. destruct p as [l|]; [|done]. by read_cell Hp.
Qed.

Lemma readInt_prefix h h' p v :
  h `prefix_of` h' → readInt h p = Some v → readInt h' p = Some v.
Proof.
  intros Hp Hr. unfold readInt in *. destruct p as [l|]; [|done]. by read_cell Hp.
Qed.

Lemma readBool_prefix h h' p v :
  h `prefix_of` h' → readBool h p = Some v → readBool h' p = Some v.
Proof.
  intros Hp Hr. unfold readBool in *. destruct p as [l|]; [|done]. by read_cell Hp.
Qed.

(** In a chain of reads, each read that succeeds on [h] succeeds on [h']. *)
Ltac next_read Hp Hr :=
  match type of Hr with
  | context [readStr ?h ?p] =>
      let v := fresh "v" in let Hv := fresh "Hv" in
      destruct (readStr h p) as [v|] eqn:Hv; [|discriminate];
      rewrite (readStr_prefix _ _ _ _ Hp Hv); simpl in Hr |- *
  | context [readInt ?h ?p] =>
      let v := fresh "v" in let Hv := fresh "Hv" in
      destruct (readInt h p) as [v|] eqn:Hv; [|discriminate];
      rewrite (readInt_prefix _ _ _ _ Hp Hv); simpl in Hr |- *
  | context [readBool ?h ?p] =>
      let v := fresh "v" in let Hv := fresh "Hv" in
      destruct (readBool h p) as [v|] eqn:Hv; [|discriminate];
      rewrite (readBool_prefix _ _ _ _ Hp Hv); simpl in Hr |- *
  end.

Lemma readCoverImage_prefix h h' p v :
  h `prefix_of` h' → readCoverImage h p = Some v → readCoverImage h' p = Some v.
Proof.
  intros Hp Hr. unfold readCoverImage in *. destruct p as [l|]; [|done].
  read_cell Hp. destruct o; try discriminate. simpl in *.
  repeat next_read Hp Hr. done.
Qed.

Lemma readMedia_prefix h h' p v :
  h `prefix_of` h' → readMedia h p = Some v → readMedia h' p = Some v.
Proof.
  intros Hp Hr. unfold readMedia in *. destruct p as [l|]; [|done].
  read_cell Hp. destruct o; try discriminate. simpl in *.
  repeat next_read Hp Hr.
  destruct (readCoverImage h (CoverImagePtr m)) as [c|] eqn:Hc; [|discriminate].
  by rewrite (readCoverImage_prefix _ _ _ _ Hp Hc).
Qed.

Lemma readDate_prefix h h' p v :
  h `prefix_of` h' → readDate h p = Some v → readDate h' p = Some v.
Proof.
  intros Hp Hr. unfold readDate in *. destruct p as [l|]; [|done].
  read_cell Hp. destruct o; try discriminate. simpl in *.
  repeat next_read Hp Hr. done.
Qed.

Lemma readEntry_prefix h h' l v :
  h `prefix_of` h' → readEntry h l = Some v → readEntry h' l = Some v.
Proof.
  intros Hp Hr. unfold readEntry in *.
  read_cell Hp. destruct o; try discriminate. simpl in *.
  repeat next_read Hp Hr.
  destruct (readDate h (StartedAtPtr e)) as [s|] eqn:Hs; [|discriminate].
  rewrite (readDate_prefix _ _ _ _ Hp Hs). simpl in *.
  destruct (readDate h (CompletedAtPtr e)) as [c|] eqn:Hc; [|discriminate].
  rewrite (readDate_prefix _ _ _ _ Hp Hc). simpl in *.
  destruct (readMedia h (MediaPtr e)) as [m|] eqn:Hm; [|discriminate].
  by rewrite (readMedia_prefix _ _ _ _ Hp Hm).
Qed.

Lemma mapM_prefix {B : Type} (read : Heap → loc → option B) h h' ls vs :
  (∀ l v, read h l = Some v → read h' l = Some v) →
  mapM (read h) ls = Some vs → mapM (read h') ls = Some vs.
Proof.
  intros Hread Hm. apply mapM_Some in Hm. apply mapM_Some.
  eapply Forall2_impl; [done|]. intros l v. apply Hread.
Qed.

Lemma readLists_prefix h h' l v :
  h `prefix_of` h' → readLists h l = Some v → readLists h' l = Some v.
Proof.
  intros Hp Hr. unfold readLists in *.
  read_cell Hp. destruct o; try discriminate. simpl in *.
  repeat next_read Hp Hr.
  destruct (mapM (readEntry h) (EntriesSlice l0)) as [es|] eqn:Hes; [|discriminate].
  rewrite (mapM_prefix readEntry h h' _ _ (λ l v, readEntry_prefix h h' l v Hp) Hes).
  done.
Qed.

Lemma readCollection_prefix h h' l v :
  h `prefix_of` h' → readCollection h l = Some v → readCollection h' l = Some v.
Proof.
  intros Hp Hr. unfold readCollection in *.
  read_cell Hp. destruct o as [| | | | | | | | |[mlc|]]; try discriminate; [|done].
  read_cell Hp. destruct o; try discriminate. simpl in *.
  destruct (mapM (readLists h) lists) as [ls|] eqn:Hls; [|discriminate].
  rewrite (mapM_prefix readLists h h' _ _ (λ l v, readLists_prefix h h' l v Hp) Hls).
  done.
Qed.

(** *** The pass as a whole *)

Section Pass.

Variable FormatAssetUrl : Z → string → option string.
Variable BaseAnimeDeepCopy : option loc → M (option loc).
Variable BaseMangaDeepCopy : option loc → M (option loc).
Hypothesis BaseAnimeDeepCopy_copies : deepCopies BaseAnimeDeepCopy.
Hypothesis BaseMangaDeepCopy_copies : deepCopies BaseMangaDeepCopy.

Lemma safe_synchronizeCollections base trackedAnimeMap trackedMangaMap
    animeSnapshots mangaSnapshots _animeCollection _mangaCollection :
  safe base
    (synchronizeCollections FormatAssetUrl BaseAnimeDeepCopy BaseMangaDeepCopy
       trackedAnimeMap trackedMangaMap animeSnapshots mangaSnapshots
       _animeCollection _mangaCollection)
    (λ r, new base (fst r) ∧ new base (snd r)).
Proof.
  eapply safe_bind; [apply safe_newCollection|]. intros [localAnime animeLists] [HA HAl].
  eapply safe_bind; [apply safe_newCollection|]. intros [localManga mangaLists] [HM HMl].
  simpl in *.
  eapply safe_bind; [apply safe_remoteLists|]. intros _animeLists _.
  eapply safe_bind.
  { apply safe_forEach. intros _list _. by apply safe_createList. }
  intros _ _.
  eapply safe_bind; [apply safe_remoteLists|]. intros _mangaLists _.
  eapply safe_bind.
  { apply safe_forEach. intros _list _. by apply safe_createList. }
  intros _ _.
  eapply safe_bind; [by apply safe_fillCollection|]. intros _ _.
  eapply safe_bind; [by apply safe_fillCollection|]. intros _ _.
  by apply safe_ret.
Qed.

(** C9.  A Builder pass changes no object that exists when it starts: the
    heap it leaves, whether it returns or panics, is the heap it found
    followed by the objects it allocated.  Every store of the pass is to an
    object of that pass, and what is read off either remote collection after
    the pass is what was read off it before, field for field. *)
Theorem remote_collections_are_not_mutated trackedAnimeMap trackedMangaMap
    animeSnapshots mangaSnapshots _animeCollection _mangaCollection h :
  let h' :=
    heapOf (synchronizeCollections FormatAssetUrl BaseAnimeDeepCopy BaseMangaDeepCopy
              trackedAnimeMap trackedMangaMap animeSnapshots mangaSnapshots
              _animeCollection _mangaCollection h) in
  h `prefix_of` h' ∧
  (∀ c, readCollection h _animeCollection = Some c →
        readCollection h' _animeCollection = Some c) ∧
  (∀ c, readCollection h _mangaCollection = Some c →
        readCollection h' _mangaCollection = Some c).
Proof.
  intros h'.
  assert (Hp : h `prefix_of` h').
  { pose proof (safe_synchronizeCollections h trackedAnimeMap trackedMangaMap
                  animeSnapshots mangaSnapshots _animeCollection _mangaCollection h) as Hsafe.
    subst h'.
    destruct (synchronizeCollections _ _ _ _ _ _ _ _ _ h) as [r h1|h1]; simpl.
    - apply Hsafe; [done|]. intros l o Hl Hlook.
      apply lookup_lt_Some in Hlook. unfold new in Hl. lia.
    - apply Hsafe; [done|]. intros l o Hl Hlook.
      apply lookup_lt_Some in Hlook. unfold new in Hl. lia. }
  split_and!; [done|..]; intros c; by apply readCollection_prefix.
Qed.

End Pass.

(** *** The modelled deep copy is one *)

(** From a heap of at least [n] objects, [c] only allocates, no list
    collection among its objects, and returns a value that satisfies [Q]. *)
Definition allocates (n : nat) {A : Type} (c : M A) (Q : A → Prop) : Prop :=
  ∀ h, n ≤ length h →
    ∃ objs, heapOf (c h) = h ++ objs ∧
            Forall (λ o, ∀ lists, o ≠ OListCollection lists) objs ∧
            ∀ a h', c h = Ok a h' → Q a.

Lemma allocates_ret n {A : Type} (a : A) (Q : A → Prop) : Q a → allocates n (mret a) Q.
Proof.
  intros HQ h Hn. exists []. simpl. rewrite app_nil_r. split_and!; [done|constructor|].
  by intros a' h' [= <- <-].
Qed.

Lemma allocates_panic n {A : Type} (Q : A → Prop) : allocates n panic Q.
Proof.
  intros h Hn. exists []. simpl. rewrite app_nil_r. split_and!; [done|constructor|done].
Qed.

Lemma allocates_bind n {A B : Type} (c : M A) (k : A → M B) (Q : A → Prop) (R : B → Prop) :
  allocates n c Q → (∀ a, Q a → allocates n (k a) R) → allocates n (c ≫= k) R.
Proof.
  intros Hc Hk h Hn. unfold mbind, M_bind.
  destruct (Hc h Hn) as (objs1 & Hh1 & Hobjs1 & HQ).
  destruct (c h) as [a h1|h1]; simpl in Hh1; subst h1.
  - destruct (Hk a (HQ a _ eq_refl) (h ++ objs1)) as (objs2 & Hh2 & Hobjs2 & HR).
    { rewrite length_app. lia. }
    exists (objs1 ++ objs2). rewrite app_assoc. split_and!; [done|by apply Forall_app|].
    intros b h' Hb. by eapply HR.
  - exists objs1. split_and!; done.
Qed.

Lemma allocates_load n l : allocates n (load l) (λ _, True).
Proof.
  intros h Hn. exists []. unfold load. rewrite app_nil_r.
  destruct (h !! l); split_and!; (done || constructor).
Qed.

Lemma allocates_alloc n o :
  (∀ lists, o ≠ OListCollection lists) → allocates n (alloc o) (λ l, n ≤ l).
Proof.
  intros Ho h Hn. exists [o]. unfold alloc. simpl. split_and!; [done|by constructor|].
  by intros l h' [= <- <-].
Qed.

Lemma allocates_ToNewPointer n p : allocates n (ToNewPointer p) (λ _, True).
Proof.
  destruct p as [l|]; simpl; [|by apply allocates_ret].
  eapply allocates_bind; [apply allocates_load|]. intros o _.
  destruct o; simpl; try apply allocates_panic.
  all: eapply allocates_bind; [apply allocates_alloc; intros ?; discriminate|].
  all: intros l' _; by apply allocates_ret.
Qed.

Lemma allocates_loadMedia n l : allocates n (loadMedia l) (λ _, True).
Proof.
  eapply allocates_bind; [apply allocates_load|].
  intros [] _; (by apply allocates_ret) || apply allocates_panic.
Qed.

Lemma allocates_loadCoverImage n l : allocates n (loadCoverImage l) (λ _, True).
Proof.
  eapply allocates_bind; [apply allocates_load|].
  intros [] _; (by apply allocates_ret) || apply allocates_panic.
Qed.

Lemma BaseMediaDeepCopy_allocates n p :
  allocates n (BaseMediaDeepCopy p) (λ r, ∀ l, r = Some l → n ≤ l).
Proof.
  destruct p as [l|]; simpl; [|by apply allocates_ret].
  eapply allocates_bind; [apply allocates_loadMedia|]. intros m _.
  eapply allocates_bind; [apply allocates_ToNewPointer|]. intros banner _.
  eapply allocates_bind.
  { instantiate (1 := λ _, True).
    destruct (CoverImagePtr m) as [cl|]; [|by apply allocates_ret].
    eapply allocates_bind; [apply allocates_loadCoverImage|]. intros c _.
    do 4 (eapply allocates_bind; [apply allocates_ToNewPointer|]; intros ? _).
    eapply allocates_bind; [apply allocates_alloc; intros ?; discriminate|].
    intros cl' _. by apply allocates_ret. }
  intros cover _.
  eapply allocates_bind; [apply allocates_alloc; intros ?; discriminate|].
  intros l' Hl'. apply allocates_ret. by intros ? [= <-].
Qed.

Lemma BaseMediaDeepCopy_copies : deepCopies BaseMediaDeepCopy.
Proof.
  intros p h.
  destruct (BaseMediaDeepCopy_allocates (length h) p h) as (objs & Hh & Hobjs & Hfresh);
    [done|].
  exists objs. split_and!; [done..|]. intros l h' Hr. by apply (Hfresh _ _ Hr).
Qed.

End HeapProperties.


(** ** The properties on the concrete library *)

Definition synchronizeCollectionsOn (failing : list DbOp) : option error * Syncer :=
  synchronizeCollections Scenario.FormatAssetUrl Scenario.DeepCopy Scenario.DeepCopy
    (Scenario.syncer failing).

(** A full pass over a healthy store. *)
Lemma local_lists_mirror_remote_lists_witness :
  synchronizeCollections Scenario.FormatAssetUrl Scenario.DeepCopy Scenario.DeepCopy
    (Scenario.syncer []) = (None, snd (synchronizeCollectionsOn []))
  ∧ ∃ _anime _manga anime manga,
      animeCollection (manager (Scenario.syncer [])) = Some _anime ∧
      mangaCollection (manager (Scenario.syncer [])) = Some _manga ∧
      localAnimeCollection (manager (snd (synchronizeCollectionsOn []))) = Some anime ∧
      localMangaCollection (manager (snd (synchronizeCollectionsOn []))) = Some manga ∧
      localAnimeCollectionRow (localDb (manager (snd (synchronizeCollectionsOn [])))) = Some anime ∧
      localMangaCollectionRow (localDb (manager (snd (synchronizeCollectionsOn [])))) = Some manga ∧
      mirrorsLists _anime anime ∧
      mirrorsLists _manga manga.
Proof.
  split; [vm_compute; reflexivity|].
  apply (local_lists_mirror_remote_lists Scenario.FormatAssetUrl Scenario.DeepCopy
           Scenario.DeepCopy (Scenario.syncer [])).
  vm_compute; reflexivity.
Defined.

(** The manga save fails after the anime save succeeded: the store and the
    Manager hold the new anime collection, against the claim that a failed
    pass changes neither. *)
Lemma failed_manga_save_replaces_anime_collection :
  let q := Scenario.syncer [OpSaveMangaCollection] in
  let pass := synchronizeCollectionsOn [OpSaveMangaCollection] in
  fst pass = Some (ioError OpSaveMangaCollection) ∧
  localAnimeCollectionRow (localDb (manager (snd pass)))
  ≠ localAnimeCollectionRow (localDb (manager q)) ∧
  localAnimeCollection (manager (snd pass)) ≠ localAnimeCollection (manager q).
Proof. vm_compute. split_and!; [reflexivity|discriminate|discriminate]. Qed.

Lemma failed_pass_keeps_manga_and_may_replace_anime_witness :
  let q := Scenario.syncer [OpSaveMangaCollection] in
  let q' := snd (synchronizeCollectionsOn [OpSaveMangaCollection]) in
  synchronizeCollections Scenario.FormatAssetUrl Scenario.DeepCopy Scenario.DeepCopy q
  = (Some (ioError OpSaveMangaCollection), q')
  ∧ localMangaCollectionRow (localDb (manager q')) = localMangaCollectionRow (localDb (manager q))
  ∧ localMangaCollection (manager q') = localMangaCollection (manager q).
Proof.
  intros q q'. split; [vm_compute; reflexivity|].
  pose proof (failed_pass_keeps_manga_and_may_replace_anime Scenario.FormatAssetUrl
                Scenario.DeepCopy Scenario.DeepCopy q (ioError OpSaveMangaCollection) q') as H.
  destruct H as (Hrow & Hpub & _); [vm_compute; reflexivity|].
  split; assumption.
Defined.
Lemma local_entries_are_tracked_snapshots_witness :
  synchronizeCollections Scenario.FormatAssetUrl Scenario.DeepCopy Scenario.DeepCopy
    (Scenario.syncer []) = (None, snd (synchronizeCollectionsOn []))
  ∧ ∃ _anime _manga anime manga,
      animeCollection (manager (Scenario.syncer [])) = Some _anime ∧
      mangaCollection (manager (Scenario.syncer [])) = Some _manga ∧
      localAnimeCollection (manager (snd (synchronizeCollectionsOn []))) = Some anime ∧
      localMangaCollection (manager (snd (synchronizeCollectionsOn []))) = Some manga ∧
      wellPlaced Scenario.FormatAssetUrl Scenario.DeepCopy
        (trackedAnimeMap (Scenario.syncer []))
        (map animeAssets (fst (GetAnimeSnapshots (localDb (manager (Scenario.syncer []))))))
        _anime anime ∧
      wellPlaced Scenario.FormatAssetUrl Scenario.DeepCopy
        (trackedMangaMap (Scenario.syncer []))
        (map mangaAssets (fst (GetMangaSnapshots (localDb (manager (Scenario.syncer []))))))
        _manga manga ∧
      (∀ s, s ∈ fst (GetAnimeSnapshots (localDb (manager (Scenario.syncer [])))) →
            s ∈ animeSnapshotRows (localDb (manager (Scenario.syncer [])))) ∧
      (∀ s, s ∈ fst (GetMangaSnapshots (localDb (manager (Scenario.syncer [])))) →
            s ∈ mangaSnapshotRows (localDb (manager (Scenario.syncer [])))).
Proof.
  split; [vm_compute; reflexivity|].
  apply (local_entries_are_tracked_snapshots Scenario.FormatAssetUrl Scenario.DeepCopy
           Scenario.DeepCopy (Scenario.syncer [])).
  vm_compute; reflexivity.
Defined.

(** The drain check over a store that fails on the save of the anime
    collection. *)
Definition drainedWith (failing : list DbOp) : Syncer :=
  withShouldUpdate true (Scenario.syncer failing).

Lemma failed_pass_still_clears_flag_and_signals_witness :
  let q := drainedWith [OpSaveAnimeCollection] in
  let check :=
    checkAndUpdateLocalCollections Scenario.FormatAssetUrl Scenario.DeepCopy Scenario.DeepCopy in
  fst (synchronizeCollections Scenario.FormatAssetUrl Scenario.DeepCopy Scenario.DeepCopy q)
  = Some (ioError OpSaveAnimeCollection)
  ∧ shouldUpdateLocalCollections (stateOf (check q)) = false
  ∧ check q = Returned (stateOf (check q))
  ∧ doneUpdatingLocalCollections (stateOf (check q)) = 1%nat
  ∧ check (stateOf (check q)) = Returned (stateOf (check q)).
Proof.
  intros q check. split; [vm_compute; reflexivity|].
  pose proof (failed_pass_still_clears_flag_and_signals Scenario.FormatAssetUrl
                Scenario.DeepCopy Scenario.DeepCopy q (ioError OpSaveAnimeCollection)
                (snd (synchronizeCollections Scenario.FormatAssetUrl Scenario.DeepCopy
                        Scenario.DeepCopy q))) as H.
  destruct H as (_ & Hflag & _ & Hroom & _ & Hagain);
    [reflexivity | reflexivity | reflexivity | vm_compute; reflexivity |].
  destruct Hroom as [Hret Hdone]; [vm_compute; lia|].
  split_and!; assumption.
Defined.

(** *** Jobs on the concrete library *)

Definition synchronizeAnimeWith
    (GetAnimeMetadata : Z → AnimeMetadata + error)
    (DownloadAnimeImages :
       AssetStore → AnimeListEntry → AnimeMetadata →
       AssetStore * (string * string * gmap string string * bool))
    (DownloadAnimeEpisodeImages :
       AssetStore → Z → gmap string string → AssetStore * (gmap string string * bool)) :
    AnimeDiffResult → Syncer → Syncer :=
  synchronizeAnime GetAnimeMetadata DownloadAnimeImages DownloadAnimeEpisodeImages
    Scenario.GetAnimeReferenceKey.

Definition synchronizeMangaWith
    (DownloadMangaImages : AssetStore → MangaListEntry → AssetStore * (string * string * bool)) :
    MangaDiffResult → Syncer → Syncer :=
  synchronizeManga DownloadMangaImages Scenario.GetListEntryFromMangaId
    Scenario.GetMangaReferenceKey.

(** The files of anime 101 are gone. *)
Definition noFiles : Syncer :=
  Scenario.syncerWith
    (Scenario.managerWith (Some Scenario.remoteManga) [] [Scenario.container201] []).

(** The chapter containers of manga 201 are gone. *)
Definition noContainers : Syncer :=
  Scenario.syncerWith
    (Scenario.managerWith (Some Scenario.remoteManga) Scenario.files101 [] []).

(** The chapter containers of manga 201 are gone, and so is manga 201 from
    the remote collection the Manager now holds. *)
Definition noContainersUnlisted : Syncer :=
  Scenario.syncerWith
    (Scenario.managerWith (Some Scenario.remoteMangaWithout201) Scenario.files101 [] []).

(** Manga 201 has its containers and is gone from the remote collection. *)
Definition unlisted : Syncer :=
  Scenario.syncerWith
    (Scenario.managerWith (Some Scenario.remoteMangaWithout201) Scenario.files101
       [Scenario.container201] []).

Lemma media_without_local_dependencies_is_removed_witness :
  let anime :=
    synchronizeAnimeWith Scenario.GetAnimeMetadata Scenario.DownloadAnimeImages
      Scenario.DownloadAnimeEpisodeImages
      (Scenario.animeDiff DiffTypeMetadata 101 (Some Scenario.snapshot101)) noFiles in
  let manga :=
    synchronizeMangaWith Scenario.DownloadMangaImages
      (Scenario.mangaDiff DiffTypeMetadata 201 (Some Scenario.snapshot201)) noContainers in
  (foundLocalFiles 101 (localFiles (manager noFiles)) = false ∧
   animeSnapshotRows (localDb (manager anime)) = [] ∧
   localAssets (manager anime) !! 101%Z = None) ∧
  (containersOf 201 (downloadedChapterContainers (manager noContainers)) = [] ∧
   mangaSnapshotRows (localDb (manager manga)) = [] ∧
   localAssets (manager manga) !! 201%Z = None).
Proof.
  intros anime manga.
  pose proof (media_without_local_dependencies_is_removed Scenario.GetAnimeMetadata
                Scenario.DownloadAnimeImages Scenario.DownloadAnimeEpisodeImages
                Scenario.DownloadMangaImages Scenario.GetListEntryFromMangaId
                Scenario.GetAnimeReferenceKey Scenario.GetMangaReferenceKey) as [Hanime Hmanga].
  split.
  - destruct (Hanime (Scenario.animeDiff DiffTypeMetadata 101 (Some Scenario.snapshot101))
                (Scenario.entry 101 "CURRENT") noFiles eq_refl eq_refl)
      as (Hdb & _ & _ & _ & _ & Hgone).
    destruct (Hgone eq_refl) as [_ Hassets].
    split_and!; [reflexivity | | ].
    + subst anime. unfold synchronizeAnimeWith. rewrite Hdb. reflexivity.
    + subst anime. unfold synchronizeAnimeWith. rewrite Hassets. reflexivity.
  - assert (Hlisted : mangaListed Scenario.GetListEntryFromMangaId
                        (Scenario.entry 201 "CURRENT") noContainers).
    { exists Scenario.remoteManga, (Scenario.entry 201 "CURRENT").
      split_and!; [reflexivity | reflexivity | discriminate]. }
    destruct (Hmanga (Scenario.mangaDiff DiffTypeMetadata 201 (Some Scenario.snapshot201))
                (Scenario.entry 201 "CURRENT") noContainers eq_refl Hlisted eq_refl)
      as (Hdb & _ & _ & _ & _ & Hgone).
    destruct (Hgone eq_refl) as [_ Hassets].
    split_and!; [reflexivity | | ].
    + subst manga. unfold synchronizeMangaWith. rewrite Hdb. reflexivity.
    + subst manga. unfold synchronizeMangaWith. rewrite Hassets. reflexivity.
Defined.

(** Manga 201 has no chapter container left, yet [synchronizeManga] keeps
    its snapshot and its assets, because the remote manga collection no
    longer lists it. *)
Lemma unlisted_manga_without_containers_is_kept :
  let q' :=
    synchronizeMangaWith Scenario.DownloadMangaImages
      (Scenario.mangaDiff DiffTypeMetadata 201 (Some Scenario.snapshot201))
      noContainersUnlisted in
  containersOf 201 (downloadedChapterContainers (manager noContainersUnlisted)) = [] ∧
  mangaSnapshotRows (localDb (manager q')) = [Scenario.snapshot201] ∧
  localAssets (manager q') !! 201%Z = Some ["banner.png"; "cover.png"].
Proof. vm_compute. split_and!; reflexivity. Qed.

(** The metadata provider is down for the missing anime 101; the image
    download fails for the missing manga 201. *)
Lemma failures_route_entry_to_failed_queue_witness :
  let anime :=
    synchronizeAnimeWith Scenario.GetAnimeMetadataDown Scenario.DownloadAnimeImages
      Scenario.DownloadAnimeEpisodeImages
      (Scenario.animeDiff DiffTypeMissing 101 None) (Scenario.syncer []) in
  let manga :=
    synchronizeMangaWith Scenario.DownloadMangaImagesDown
      (Scenario.mangaDiff DiffTypeMissing 201 None) (Scenario.syncer []) in
  failedAnimeQueue anime = {[ 101%Z := Scenario.entry 101 "CURRENT" ]} ∧
  localDb (manager anime) = localDb (manager (Scenario.syncer [])) ∧
  failedMangaQueue manga = {[ 201%Z := Scenario.entry 201 "CURRENT" ]} ∧
  localDb (manager manga) = localDb (manager (Scenario.syncer [])) ∧
  animeJobQueue anime = [] ∧ mangaJobQueue manga = [].
Proof.
  intros anime manga.
  pose proof (failures_route_entry_to_failed_queue Scenario.GetAnimeMetadataDown
                Scenario.DownloadAnimeImages Scenario.DownloadAnimeEpisodeImages
                Scenario.DownloadMangaImagesDown Scenario.GetListEntryFromMangaId
                Scenario.GetAnimeReferenceKey Scenario.GetMangaReferenceKey)
    as (HqA & HqM & HfailA & HfailM).
  destruct (HfailA (Scenario.animeDiff DiffTypeMissing 101 None)
              (Scenario.entry 101 "CURRENT") (Scenario.syncer []) eq_refl eq_refl)
    as [HfA HdbA].
  { eapply AnimeMetadataFetchFails; [discriminate|reflexivity]. }
  destruct (HfailM (Scenario.mangaDiff DiffTypeMissing 201 None)
              (Scenario.entry 201 "CURRENT") (Scenario.syncer []) eq_refl)
    as [HfM HdbM].
  { exists Scenario.remoteManga, (Scenario.entry 201 "CURRENT").
    split_and!; [reflexivity | reflexivity | discriminate]. }
  { discriminate. }
  { apply MangaImageDownloadFails; reflexivity. }
  destruct (HqA (Scenario.animeDiff DiffTypeMissing 101 None) (Scenario.syncer [])) as [HA _].
  destruct (HqM (Scenario.mangaDiff DiffTypeMissing 201 None) (Scenario.syncer [])) as [_ HM].
  subst anime manga. unfold synchronizeAnimeWith, synchronizeMangaWith.
  rewrite HfA, HdbA, HfM, HdbM, HA, HM. split_and!; reflexivity.
Defined.

(** Manga 201 is missing from the remote collection the Manager holds:
    [synchronizeManga] logs the error "Failed to get manga" and returns, and
    the entry is in no failed queue. *)
Lemma unlisted_manga_fails_without_failed_entry :
  let q' :=
    synchronizeMangaWith Scenario.DownloadMangaImages
      (Scenario.mangaDiff DiffTypeMissing 201 None) unlisted in
  last (logger (manager q'))
  = Some {| Level := LevelError; Message := "sync: Failed to get manga"; Err := None |} ∧
  failedMangaQueue q' !! 201%Z = None ∧
  failedAnimeQueue q' !! 201%Z = None.
Proof. vm_compute. split_and!; reflexivity. Qed.

(** The outdated snapshot of anime 101 holds the image of episode 1; the
    fresh metadata has images for episodes 1 and 2 and none for episode 3. *)
Lemma outdated_anime_downloads_missing_episode_images_witness :
  let diff := Scenario.animeDiff DiffTypeMetadata 101 (Some Scenario.snapshot101) in
  let q' :=
    synchronizeAnimeWith Scenario.GetAnimeMetadata Scenario.DownloadAnimeImages
      Scenario.DownloadAnimeEpisodeImages diff (Scenario.syncer []) in
  fetches (manager q')
  = [ FetchAnimeMetadata 101;
      FetchAnimeEpisodeImages 101 {[ "2" := "https://img.example/e2.jpg" ]} ] ∧
  animeSnapshotRows (localDb (manager q'))
  = [ {| AnimeMediaId := 101;
         AnimeMetadataOf := Scenario.metadata101;
         AnimeBannerImagePath := "banner.jpg";
         AnimeCoverImagePath := "cover.jpg";
         EpisodeImagePaths := {[ "1" := "episode-1.jpg"; "2" := "episode-2.jpg" ]};
         AnimeReferenceKey := "/library/example-01.mkv;/library/example-02.mkv" |} ].
Proof.
  intros diff q'.
  pose proof (outdated_anime_downloads_missing_episode_images Scenario.GetAnimeMetadata
                Scenario.DownloadAnimeImages Scenario.DownloadAnimeEpisodeImages
                Scenario.GetAnimeReferenceKey diff (Scenario.entry 101 "CURRENT")
                Scenario.snapshot101 Scenario.metadata101 (Scenario.syncer [])
                eq_refl eq_refl eq_refl eq_refl eq_refl) as (_ & Hfetches & Hsaved).
  destruct Hsaved as (Hrows & _ & _); [right; vm_compute; reflexivity | reflexivity |].
  subst q'. unfold synchronizeAnimeWith. rewrite Hfetches, Hrows.
  vm_compute. split; reflexivity.
Defined.

(** *** The two workers on the concrete library *)

Definition runOn : list Move → Machine → option (Machine * list Event) :=
  run Scenario.FormatAssetUrl Scenario.DeepCopy Scenario.DeepCopy
    Scenario.GetAnimeMetadata Scenario.DownloadAnimeImages Scenario.DownloadAnimeEpisodeImages
    Scenario.DownloadMangaImages Scenario.GetListEntryFromMangaId
    Scenario.GetAnimeReferenceKey Scenario.GetMangaReferenceKey.

Definition traceOf (r : option (Machine * list Event)) : list Event :=
  match r with
  | Some (_, trace) => trace
  | None => []
  end.

Definition animeJob101 : AnimeJob :=
  {| AnimeDiff := Scenario.animeDiff DiffTypeMetadata 101 (Some Scenario.snapshot101) |}.

Definition mangaJob201 : MangaJob :=
  {| MangaDiff := Scenario.mangaDiff DiffTypeMetadata 201 (Some Scenario.snapshot201) |}.

(** Both workers take their job before either finishes: the queues drain
    once; each worker then sets the flag, handles its job, and finds the flag
    set and both queues empty. *)
Definition bothBusy : list Move :=
  [ SendAnimeJob animeJob101; SendMangaJob mangaJob201;
    Step AnimeWorker; Step MangaWorker ]
  ++ replicate 10 (Step AnimeWorker)
  ++ [ ReceiveDone ]
  ++ replicate 10 (Step MangaWorker).

(** The queues drain to empty once and two Builder passes run. *)
Lemma both_busy_workers_run_two_passes_for_one_drain :
  let r := runOn bothBusy (spawn (Scenario.syncer [])) in
  (∃ m, r = Some (m, traceOf r) ∧ quiescent m) ∧
  drains (traceOf r) = 1%nat ∧
  passes (traceOf r) = 2%nat.
Proof.
  vm_compute. split_and!; [|reflexivity|reflexivity].
  eexists. split; [reflexivity|]. split_and!; reflexivity.
Qed.

Lemma workers_check_after_each_job_witness :
  let r := runOn bothBusy (spawn (Scenario.syncer [])) in
  (∃ m, r = Some (m, traceOf r)) ∧
  count (EvCheck MangaWorker true) (traceOf r) = count (EvReceive MangaWorker) (traceOf r) ∧
  count (EvPass MangaWorker) (traceOf r) = count (EvCheck MangaWorker true) (traceOf r) ∧
  count (EvSignal MangaWorker) (traceOf r) = count (EvPass MangaWorker) (traceOf r).
Proof.
  intros r.
  destruct r as [[m trace]|] eqn:Hr; [|vm_compute in Hr; discriminate].
  split; [by exists m|]. simpl.
  pose proof (workers_check_after_each_job Scenario.FormatAssetUrl Scenario.DeepCopy
                Scenario.DeepCopy Scenario.GetAnimeMetadata Scenario.DownloadAnimeImages
                Scenario.DownloadAnimeEpisodeImages Scenario.DownloadMangaImages
                Scenario.GetListEntryFromMangaId Scenario.GetAnimeReferenceKey
                Scenario.GetMangaReferenceKey) as [_ Hruns].
  destruct (Hruns (Scenario.syncer []) bothBusy m trace Hr MangaWorker)
    as (_ & _ & _ & Hidle & _).
  assert (Hm : idle MangaWorker m).
  { vm_compute in Hr. inversion Hr; subst. reflexivity. }
  destruct (Hidle Hm) as (Hchecks & Hpasses & Hsignals).
  assert (Hfalse : count (EvCheck MangaWorker false) trace = 0%nat).
  { vm_compute in Hr. inversion Hr; subst. reflexivity. }
  split_and!; [lia | done | done].
Defined.

(** Manga 201 is tracked and has chapter containers, and has no snapshot yet. *)
Definition withoutMangaSnapshot : Syncer :=
  withManager
    (withLocalDb (withMangaSnapshotRows [] (Scenario.store []))
       (manager (Scenario.syncer [])))
    (Scenario.syncer []).

Definition missingMangaJob201 : MangaJob :=
  {| MangaDiff := Scenario.mangaDiff DiffTypeMissing 201 None |}.

(** The manga job arrives while the anime worker is in its Builder pass: the
    manga worker sets the flag, the anime worker clears it at the end of its
    pass, and the check that follows the manga job finds it cleared. *)
Definition lateJob : list Move :=
  [ SendAnimeJob animeJob101 ]
  ++ replicate 8 (Step AnimeWorker)
  ++ [ SendMangaJob missingMangaJob201; Step MangaWorker; Step MangaWorker ]
  ++ replicate 3 (Step AnimeWorker)
  ++ replicate 4 (Step MangaWorker).

(** The run ends with both workers waiting and both queues empty; the
    snapshot of manga 201 is stored, and the published local manga
    collection, built before the job was handled, has no entry for it: a
    pass from the final state would build another collection. *)
Lemma late_job_is_left_out_of_the_local_collection :
  let r := runOn lateJob (spawn withoutMangaSnapshot) in
  ∃ m, r = Some (m, traceOf r) ∧
    quiescent m ∧
    drains (traceOf r) = 2%nat ∧
    passes (traceOf r) = 1%nat ∧
    shouldUpdateLocalCollections (shared m) = false ∧
    MangaMediaId <$> mangaSnapshotRows (localDb (manager (shared m))) = [201%Z] ∧
    (Entries <$> listsOf (default (Scenario.collection [])
                            (localMangaCollection (manager (shared m))))) = [[]] ∧
    (Entries <$> listsOf (builtMangaCollection Scenario.FormatAssetUrl Scenario.DeepCopy
                            (shared m) Scenario.remoteManga)) ≠ [[]].
Proof.
  vm_compute. eexists. split; [reflexivity|].
  split_and!; try reflexivity. discriminate.
Qed.
